(** * EnumClassBitset: a type-safe bit-set keyed by an enum class

    Shallow embedding of [enumclassbitset.hpp] (namespace [Util]) and of
    the members of [std::bitset<N>] that the header delegates to.

    Integer model (LP64): [std::size_t] is a 64-bit unsigned integer, held
    in [N] with its wrap-around written out; an [enum class] without an
    explicit underlying type has underlying type [int] (32 bits), so a
    value of the enumeration type [T] is held as the [Z] of its underlying
    value and the two [static_cast]s are the usual modular conversions. *)

From stdpp Require Import base numbers fin vector list sorting gmap.

Local Open Scope Z_scope.

(** ** Integers and conversions *)

Definition size_t_modulus : Z := 2 ^ 64.
Definition int_modulus : Z := 2 ^ 32.
Definition int_min : Z := - 2 ^ 31.
Definition int_max : Z := 2 ^ 31 - 1.

(** The enumeration type [T]: an underlying [int] value. *)
Definition T : Type := Z.

(** [static_cast<std::size_t>(member)]: conversion to unsigned, modulo 2^64. *)
Definition static_cast_size_t (member : T) : N :=
  Z.to_N (member mod size_t_modulus).

(** [static_cast<T>(index)]: conversion to the 32-bit signed underlying type. *)
Definition static_cast_T (index : N) : T :=
  (Z.of_N index - int_min) mod int_modulus + int_min.

(** [index++] on a [std::size_t]. *)
Definition size_t_succ (index : N) : N :=
  ((index + 1) mod Z.to_N size_t_modulus)%N.

(** ** Outcomes of a call *)

Inductive exception : Type :=
| out_of_range.

(** A call returns a value, throws, or has undefined behaviour; a loop
    that is run with too little fuel ends in [OutOfFuel]. *)
Inductive result (A : Type) : Type :=
| Ok (a : A)
| Throw (e : exception)
| Undefined
| OutOfFuel.
Arguments Ok {A} a.
Arguments Throw {A} e.
Arguments Undefined {A}.
Arguments OutOfFuel {A}.

Definition result_bind {A B} (r : result A) (k : A -> result B) : result B :=
  match r with
  | Ok a => k a
  | Throw e => Throw e
  | Undefined => Undefined
  | OutOfFuel => OutOfFuel
  end.

Definition result_map {A B} (f : A -> B) (r : result A) : result B :=
  result_bind r (fun a => Ok (f a)).

#[global] Instance exception_eq_dec : EqDecision exception.
Proof. solve_decision. Defined.

#[global] Instance result_eq_dec {A} `{EqDecision A} : EqDecision (result A).
Proof. solve_decision. Defined.

(** ** [std::bitset<N>]

    The members used by the header, with the behaviour the C++ standard
    gives them ([bitset.members]): [test], [set(pos,val)], [reset(pos)] and
    [flip(pos)] throw [std::out_of_range] when [pos] is not a valid bit
    position, [operator[]] has undefined behaviour there. *)

Module Std.

(** Storage of a [std::bitset<n>]: exactly [n] bits, bit 0 first. *)
Abbreviation bitset n := (vec bool (N.to_nat n)).

(** The [i]-th of [m] positions, when there is one. *)
Fixpoint fin_of_nat (m i : nat) : option (fin m) :=
  match m with
  | O => None
  | S m' =>
    match i with
    | O => Some 0%fin
    | S i' => FS <$> fin_of_nat m' i'
    end
  end.

Section bitset.
Context {n : N}.

(** The bit position [pos] when it is valid, i.e. [pos < n]. *)
Definition position (pos : N) : option (fin (N.to_nat n)) :=
  if decide (pos < n)%N then fin_of_nat (N.to_nat n) (N.to_nat pos) else None.

(** [bitset()]: all bits zero. *)
Definition zero : bitset n := vreplicate (N.to_nat n) false.

Definition size (b : bitset n) : N := n.

Definition test (b : bitset n) (pos : N) : result bool :=
  match position pos with
  | Some i => Ok (b !!! i)
  | None => Throw out_of_range
  end.

(** [operator[](pos) const] *)
Definition index (b : bitset n) (pos : N) : result bool :=
  match position pos with
  | Some i => Ok (b !!! i)
  | None => Undefined
  end.

(** [bitset::reference]: a handle on one bit of one bitset. *)
Record reference : Type := Reference { ref_pos : fin (N.to_nat n) }.

(** [operator[](pos)] *)
Definition index_ref (b : bitset n) (pos : N) : result reference :=
  match position pos with
  | Some i => Ok (Reference i)
  | None => Undefined
  end.

(** [reference::operator=(bool)] applied to the bitset it refers to. *)
Definition ref_assign (r : reference) (x : bool) (b : bitset n) : bitset n :=
  vinsert (ref_pos r) x b.

Definition set (b : bitset n) (pos : N) (val : bool) : result (bitset n) :=
  match position pos with
  | Some i => Ok (vinsert i val b)
  | None => Throw out_of_range
  end.

Definition reset (b : bitset n) (pos : N) : result (bitset n) :=
  match position pos with
  | Some i => Ok (vinsert i false b)
  | None => Throw out_of_range
  end.

(** [flip(pos)] *)
Definition flip_at (b : bitset n) (pos : N) : result (bitset n) :=
  match position pos with
  | Some i => Ok (vinsert i (negb (b !!! i)) b)
  | None => Throw out_of_range
  end.

(** [flip()] *)
Definition flip (b : bitset n) : bitset n := vmap negb b.

Definition count (b : bitset n) : N :=
  N.of_nat (length (filter (fun x => x = true) (vec_to_list b))).

Definition all (b : bitset n) : bool := (count b =? size b)%N.
Definition any (b : bitset n) : bool := negb (count b =? 0)%N.
Definition none (b : bitset n) : bool := (count b =? 0)%N.

Definition and_assign (b other : bitset n) : bitset n := vzip_with andb b other.
Definition or_assign (b other : bitset n) : bitset n := vzip_with orb b other.
Definition xor_assign (b other : bitset n) : bitset n := vzip_with xorb b other.

Definition eq (b other : bitset n) : bool := bool_decide (b = other).
Definition ne (b other : bitset n) : bool := negb (eq b other).

End bitset.
End Std.

(** ** [Util::EnumClassBitset<T>] *)

Module Util.

Section EnumClassBitset.

(** [EnumTraits<T>::max], the trait descriptor of the enumeration type. *)
Variable max : T.

(** The template argument of
    [typedef std::bitset<static_cast<std::size_t>(EnumTraits<T>::max)> ImplType]. *)
Definition ImplSize : N := static_cast_size_t max.

(** The class: its only data member is [ImplType mBitset]. *)
Record EnumClassBitset : Type := { mBitset : Std.bitset ImplSize }.

Definition enumIndex (member : T) : N := static_cast_size_t member.

(** Default constructor: [mBitset] is value-initialised. *)
Definition EnumClassBitset_ctor : EnumClassBitset := {| mBitset := Std.zero |}.

Definition op_eq (this other : EnumClassBitset) : bool :=
  Std.eq (mBitset this) (mBitset other).

Definition op_ne (this other : EnumClassBitset) : bool :=
  Std.ne (mBitset this) (mBitset other).

(** [operator[](T member) const] *)
Definition op_index (this : EnumClassBitset) (member : T) : result bool :=
  Std.index (mBitset this) (enumIndex member).

(** [reference operator[](T member)] *)
Definition op_index_ref (this : EnumClassBitset) (member : T)
  : result (@Std.reference ImplSize) :=
  Std.index_ref (mBitset this) (enumIndex member).

(** Writing [x] through a [reference] obtained from [this]. *)
Definition reference_assign (r : @Std.reference ImplSize) (x : bool)
    (this : EnumClassBitset) : EnumClassBitset :=
  {| mBitset := Std.ref_assign r x (mBitset this) |}.

Definition test (this : EnumClassBitset) (member : T) : result bool :=
  Std.test (mBitset this) (enumIndex member).

Definition all (this : EnumClassBitset) : bool := Std.all (mBitset this).
Definition any (this : EnumClassBitset) : bool := Std.any (mBitset this).
Definition none (this : EnumClassBitset) : bool := Std.none (mBitset this).
Definition count (this : EnumClassBitset) : N := Std.count (mBitset this).
Definition size (this : EnumClassBitset) : N := Std.size (mBitset this).

(** The mutating members return the new state of [*this] (the reference
    they return is [*this] itself, see [call_mut] below). *)
Definition reset (this : EnumClassBitset) (member : T) : result EnumClassBitset :=
  result_map Build_EnumClassBitset (Std.reset (mBitset this) (enumIndex member)).

(** [flip()] *)
Definition flip (this : EnumClassBitset) : EnumClassBitset :=
  {| mBitset := Std.flip (mBitset this) |}.

(** [flip(T member)] *)
Definition flip_member (this : EnumClassBitset) (member : T) : result EnumClassBitset :=
  result_map Build_EnumClassBitset (Std.flip_at (mBitset this) (enumIndex member)).

Definition set (this : EnumClassBitset) (member : T) (value : bool)
  : result EnumClassBitset :=
  result_map Build_EnumClassBitset (Std.set (mBitset this) (enumIndex member) value).

Definition op_and_assign (this other : EnumClassBitset) : EnumClassBitset :=
  {| mBitset := Std.and_assign (mBitset this) (mBitset other) |}.

Definition op_or_assign (this other : EnumClassBitset) : EnumClassBitset :=
  {| mBitset := Std.or_assign (mBitset this) (mBitset other) |}.

Definition op_xor_assign (this other : EnumClassBitset) : EnumClassBitset :=
  {| mBitset := Std.xor_assign (mBitset this) (mBitset other) |}.

(** [operator&]: copy [*this] into [newBitset], update the copy, return it. *)
Definition op_and (this other : EnumClassBitset) : EnumClassBitset :=
  let newBitset := this in
  {| mBitset := Std.and_assign (mBitset newBitset) (mBitset other) |}.

Definition op_or (this other : EnumClassBitset) : EnumClassBitset :=
  let newBitset := this in
  {| mBitset := Std.or_assign (mBitset newBitset) (mBitset other) |}.

Definition op_xor (this other : EnumClassBitset) : EnumClassBitset :=
  let newBitset := this in
  {| mBitset := Std.xor_assign (mBitset newBitset) (mBitset other) |}.

(** [operator~] *)
Definition op_not (this : EnumClassBitset) : EnumClassBitset :=
  let newBitset := this in
  flip newBitset.

Definition to_raw_bitset (this : EnumClassBitset) : Std.bitset ImplSize :=
  mBitset this.

End EnumClassBitset.

Arguments mBitset {max} _.
Arguments EnumClassBitset_ctor max : clear implicits.
Arguments op_eq {max} this other.
Arguments op_ne {max} this other.
Arguments op_index {max} this member.
Arguments op_index_ref {max} this member.
Arguments reference_assign {max} r x this.
Arguments test {max} this member.
Arguments all {max} this.
Arguments any {max} this.
Arguments none {max} this.
Arguments count {max} this.
Arguments size {max} this.
Arguments reset {max} this member.
Arguments flip {max} this.
Arguments flip_member {max} this member.
Arguments set {max} this member value.
Arguments op_and_assign {max} this other.
Arguments op_or_assign {max} this other.
Arguments op_xor_assign {max} this other.
Arguments op_and {max} this other.
Arguments op_or {max} this other.
Arguments op_xor {max} this other.
Arguments op_not {max} this.
Arguments to_raw_bitset {max} this.

(** ** Objects, references and iterators

    Objects live in a store and are named by their address, so that a
    reference ([this], [EnumClassBitset const &]) is an address and
    [std::addressof] is the identity on it. *)

Abbreviation loc := positive.

Section Store.

Variable max : T.

(** What a store cell holds: an [EnumClassBitset<T>], or a raw
    [std::bitset] such as the copy returned by [to_raw_bitset]. *)
Inductive object : Type :=
| EnumSet (s : EnumClassBitset max)
| RawBits (b : Std.bitset (ImplSize max)).

Abbreviation store := (gmap loc object).

(** Computations over the store. *)
Definition M (A : Type) : Type := store -> result (A * store).

Definition ret {A} (a : A) : M A := fun h => Ok (a, h).

Definition bind {A B} (c : M A) (k : A -> M B) : M B :=
  fun h =>
    match c h with
    | Ok (a, h') => k a h'
    | Throw e => Throw e
    | Undefined => Undefined
    | OutOfFuel => OutOfFuel
    end.

Definition lift {A} (r : result A) : M A :=
  fun h => result_map (fun a => (a, h)) r.

(** Reading the [EnumClassBitset] a reference points to. *)
Definition deref (l : loc) : M (EnumClassBitset max) :=
  fun h =>
    match h !! l with
    | Some (EnumSet s) => Ok (s, h)
    | _ => Undefined
    end.

(** Overwriting the state of the [EnumClassBitset] at [l]. *)
Definition assign (l : loc) (s : EnumClassBitset max) : M unit :=
  fun h =>
    match h !! l with
    | Some (EnumSet _) => Ok (tt, <[l := EnumSet s]> h)
    | _ => Undefined
    end.

Definition deref_raw (l : loc) : M (Std.bitset (ImplSize max)) :=
  fun h =>
    match h !! l with
    | Some (RawBits b) => Ok (b, h)
    | _ => Undefined
    end.

Definition assign_raw (l : loc) (b : Std.bitset (ImplSize max)) : M unit :=
  fun h =>
    match h !! l with
    | Some (RawBits _) => Ok (tt, <[l := RawBits b]> h)
    | _ => Undefined
    end.

(** A local variable initialised with [o]: a cell at an unused address. *)
Definition new_local (o : object) : M loc :=
  fun h => let l := fresh (dom h) in Ok (l, <[l := o]> h).

(** End of the lifetime of the local variable at [l]. *)
Definition end_local (l : loc) : M unit :=
  fun h => Ok (tt, delete l h).

End Store.

Arguments EnumSet {max} s.
Arguments RawBits {max} b.
Arguments ret {max A} a.
Arguments bind {max A B} c k.
Arguments lift {max A} r.
Arguments deref {max} l.
Arguments assign {max} l s.
Arguments deref_raw {max} l.
Arguments assign_raw {max} l b.
Arguments new_local {max} o.
Arguments end_local {max} l.

Notation "'let*' x := c 'in' k" := (bind c (fun x => k))
  (at level 10, x name, c at level 100, k at level 200,
   format "'[v' 'let*'  x  :=  c  'in' '/' k ']'").

Section References.

Variable max : T.

(** Call of a const member [f] on the object [this] refers to. *)
Definition call {A} (this : loc) (f : EnumClassBitset max -> result A) : M max A :=
  let* s := deref this in lift (f s).

(** Call of a mutating member on the object [this] refers to; the member
    ends with [return *this], so the call returns the reference [this]. *)
Definition call_mut (this : loc)
    (f : EnumClassBitset max -> result (EnumClassBitset max)) : M max loc :=
  let* s := deref this in
  let* s' := lift (f s) in
  let* _ := assign this s' in
  ret this.

(** [operator&=], [operator|=], [operator^=] on references. *)
Definition op_and_assign_at (this other : loc) : M max loc :=
  let* o := deref other in call_mut this (fun s => Ok (op_and_assign s o)).

Definition op_or_assign_at (this other : loc) : M max loc :=
  let* o := deref other in call_mut this (fun s => Ok (op_or_assign s o)).

Definition op_xor_assign_at (this other : loc) : M max loc :=
  let* o := deref other in call_mut this (fun s => Ok (op_xor_assign s o)).

(** [operator&], [operator|], [operator^]: the local [newBitset] is
    copy-constructed from [*this], updated in place, returned by value
    and destroyed. *)
Definition op_and_at (this other : loc) : M max (EnumClassBitset max) :=
  let* s := deref this in
  let* newBitset := new_local (EnumSet s) in
  let* _ := op_and_assign_at newBitset other in
  let* r := deref newBitset in
  let* _ := end_local newBitset in
  ret r.

Definition op_or_at (this other : loc) : M max (EnumClassBitset max) :=
  let* s := deref this in
  let* newBitset := new_local (EnumSet s) in
  let* _ := op_or_assign_at newBitset other in
  let* r := deref newBitset in
  let* _ := end_local newBitset in
  ret r.

Definition op_xor_at (this other : loc) : M max (EnumClassBitset max) :=
  let* s := deref this in
  let* newBitset := new_local (EnumSet s) in
  let* _ := op_xor_assign_at newBitset other in
  let* r := deref newBitset in
  let* _ := end_local newBitset in
  ret r.

(** [operator~] *)
Definition op_not_at (this : loc) : M max (EnumClassBitset max) :=
  let* s := deref this in
  let* newBitset := new_local (EnumSet s) in
  let* _ := call_mut newBitset (fun s => Ok (flip s)) in
  let* r := deref newBitset in
  let* _ := end_local newBitset in
  ret r.

(** [auto raw = s.to_raw_bitset();]: the returned copy, held in a local. *)
Definition to_raw_bitset_at (this : loc) : M max loc :=
  let* b := call this (fun s => Ok (to_raw_bitset s)) in
  new_local (RawBits b).

(** A mutating member [f] of [std::bitset] called on the raw copy at [raw]. *)
Definition raw_call_mut (raw : loc)
    (f : Std.bitset (ImplSize max) -> result (Std.bitset (ImplSize max)))
  : M max loc :=
  let* b := deref_raw raw in
  let* b' := lift (f b) in
  let* _ := assign_raw raw b' in
  ret raw.

(** *** [EnumClassBitset::iterator] *)

Record iterator : Type := {
  bitset : loc;   (* EnumClassBitset const & bitset *)
  index : N;      (* std::size_t index *)
  value : T       (* T value *)
}.

(** The private constructor [iterator(argBitset, argIndex)]. *)
Definition iterator_ctor (argBitset : loc) (argIndex : N) : iterator :=
  {| bitset := argBitset; index := argIndex; value := static_cast_T argIndex |}.

(** [findNext]: the [while] loop, one iteration per unit of fuel. *)
Fixpoint findNext (fuel : nat) (it : iterator) : M max iterator :=
  let* sz := call (bitset it) (fun s => Ok (size s)) in
  if (index it <? sz)%N then
    match fuel with
    | O => lift OutOfFuel
    | S fuel' =>
      let it1 := {| bitset := bitset it; index := index it;
                    value := static_cast_T (index it) |} in
      let* b := call (bitset it1) (fun s => test s (value it1)) in
      if b : bool then ret it1
      else findNext fuel'
             {| bitset := bitset it1; index := size_t_succ (index it1);
                value := value it1 |}
    end
  else ret it.

(** [operator*] *)
Definition op_deref (it : iterator) : T := value it.

(** [operator++] *)
Definition op_incr (fuel : nat) (it : iterator) : M max iterator :=
  findNext fuel
    {| bitset := bitset it; index := size_t_succ (index it); value := value it |}.

(** [iterator::operator==] and [operator!=] *)
Definition iterator_eq (this other : iterator) : bool :=
  bool_decide (bitset this = bitset other) && (index this =? index other)%N.

Definition iterator_ne (this other : iterator) : bool :=
  negb (iterator_eq this other).

Definition begin (fuel : nat) (this : loc) : M max iterator :=
  let iter := iterator_ctor this 0%N in
  findNext fuel iter.

(** [end()] *)
Definition end_ (this : loc) : M max iterator :=
  ret (iterator_ctor this (static_cast_size_t max)).

(** [for (auto el : s) ...], collecting the values of [el] in order:
    [for (it = s.begin(), e = s.end(); it != e; ++it) { el = *it; ... }]. *)
Fixpoint range_for_loop (fuel : nat) (it e : iterator) : M max (list T) :=
  if iterator_ne it e then
    match fuel with
    | O => lift OutOfFuel
    | S fuel' =>
      let el := op_deref it in
      let* it' := op_incr fuel it in
      let* rest := range_for_loop fuel' it' e in
      ret (el :: rest)
    end
  else ret [].

Definition range_for (fuel : nat) (this : loc) : M max (list T) :=
  let* it := begin fuel this in
  let* e := end_ this in
  range_for_loop fuel it e.

End References.

(** *** What an iteration is expected to visit

    Used to state the iteration properties: the bit at a position, and
    the set positions among the [k] positions starting at [i]. *)

Definition is_set {max : T} (s : EnumClassBitset max) (i : N) : bool :=
  bool_decide (Std.test (mBitset s) i = Ok true).

Fixpoint positions_from {max : T} (s : EnumClassBitset max) (k : nat) (i : N)
  : list N :=
  match k with
  | O => []
  | S k' =>
    if is_set s i then i :: positions_from s k' (i + 1)%N
    else positions_from s k' (i + 1)%N
  end.

(** The first set position among the [k] positions starting at [i], or
    [i + k] when there is none. *)
Fixpoint first_from {max : T} (s : EnumClassBitset max) (k : nat) (i : N) : N :=
  match k with
  | O => i
  | S k' => if is_set s i then i else first_from s k' (i + 1)%N
  end.

End Util.

Import Util.

(** ** The enumerations of the test suite and of the example program

    An enumerator is its underlying value; [max] is what the
    specialisation of [EnumTraits] declares. *)

Module TestEnum.
Definition A : T := 0.
Definition B : T := 1.
Definition C : T := 2.
Definition D : T := 3.
Definition E : T := 4.
Definition max : T := E.

(** The empty set, the set with [A] and the set with [A] and [B], as the
    test suite builds them; a store with two sets in it. *)
Definition empty : EnumClassBitset max := EnumClassBitset_ctor max.
Definition only_A : EnumClassBitset max :=
  Build_EnumClassBitset max [# true; false; false; false].
Definition A_and_B : EnumClassBitset max :=
  Build_EnumClassBitset max [# true; true; false; false].
Definition two_sets : gmap loc (object max) :=
  {[ 1%positive := EnumSet only_A; 2%positive := EnumSet A_and_B ]}.

(** The set with every bit of its storage set, alone in a store. *)
Definition full : EnumClassBitset max := flip empty.
Definition one_full : gmap loc (object max) := {[ 1%positive := EnumSet full ]}.
End TestEnum.

Module ConntrackState.
Definition NEW : T := 0.
Definition ESTABLISHED : T := 1.
Definition RELATED : T := 2.
Definition max : T := RELATED.
End ConntrackState.

(** * Properties *)

(** ** Valid bit positions of [std::bitset] *)

Section StdFacts.
Context {n : N}.
Implicit Types (b : Std.bitset n) (pos : N).

Lemma fin_of_nat_to_nat m (j : fin m) : Std.fin_of_nat m (fin_to_nat j) = Some j.
Proof. induction j as [|m j IH]; simpl; [done|]. by rewrite IH. Qed.

Lemma fin_of_nat_Some m i (j : fin m) : Std.fin_of_nat m i = Some j -> fin_to_nat j = i.
Proof.
  revert i j. induction m as [|m IH]; intros i j; simpl; [done|].
  destruct i as [|i]; [by intros [= <-]|].
  destruct (Std.fin_of_nat m i) as [k|] eqn:E; simpl; [|done].
  intros [= <-]. simpl. f_equal. by apply IH.
Qed.

Lemma fin_of_nat_None m i : Std.fin_of_nat m i = None <-> (m <= i)%nat.
Proof.
  revert i. induction m as [|m IH]; intros i; simpl; [split; [lia|done]|].
  destruct i as [|i]; [split; [done|lia]|].
  specialize (IH i). destruct (Std.fin_of_nat m i); simpl in *.
  - split; [done|]. intros H. assert (m <= i)%nat as H' by lia. by apply IH in H'.
  - split; [|done]. intros _. assert (m <= i)%nat by by apply IH. lia.
Qed.

Lemma position_Some pos (i : fin (N.to_nat n)) :
  Std.position (n:=n) pos = Some i <-> fin_to_nat i = N.to_nat pos.
Proof.
  unfold Std.position. split.
  - destruct (decide _); [|done]. apply fin_of_nat_Some.
  - intros H. pose proof (fin_to_nat_lt i). rewrite decide_True by lia.
    rewrite <- H. apply fin_of_nat_to_nat.
Qed.

Lemma position_None pos : Std.position (n:=n) pos = None <-> (n <= pos)%N.
Proof.
  unfold Std.position. destruct (decide _) as [H|H].
  - rewrite fin_of_nat_None. lia.
  - split; [lia|done].
Qed.

Lemma position_lt pos : (pos < n)%N -> exists i, Std.position (n:=n) pos = Some i.
Proof.
  intros H. destruct (Std.position pos) as [i|] eqn:E; [by eexists|].
  apply position_None in E. lia.
Qed.

Lemma test_lookup b pos x :
  Std.test b pos = Ok x <-> vec_to_list b !! N.to_nat pos = Some x.
Proof.
  unfold Std.test. destruct (Std.position pos) as [i|] eqn:E.
  - apply position_Some in E. rewrite <- E, <- vlookup_lookup. naive_solver.
  - apply position_None in E. rewrite (proj2 (lookup_ge_None _ _)).
    + naive_solver.
    + rewrite length_vec_to_list. lia.
Qed.

Lemma test_throw b pos : Std.test b pos = Throw out_of_range <-> (n <= pos)%N.
Proof.
  unfold Std.test. rewrite <- position_None.
  destruct (Std.position pos); naive_solver.
Qed.

Lemma set_throw b pos v : Std.set b pos v = Throw out_of_range <-> (n <= pos)%N.
Proof.
  unfold Std.set. rewrite <- position_None.
  destruct (Std.position pos); naive_solver.
Qed.

Lemma reset_throw b pos : Std.reset b pos = Throw out_of_range <-> (n <= pos)%N.
Proof.
  unfold Std.reset. rewrite <- position_None.
  destruct (Std.position pos); naive_solver.
Qed.

Lemma flip_at_throw b pos : Std.flip_at b pos = Throw out_of_range <-> (n <= pos)%N.
Proof.
  unfold Std.flip_at. rewrite <- position_None.
  destruct (Std.position pos); naive_solver.
Qed.

Lemma index_undefined b pos : Std.index b pos = Undefined <-> (n <= pos)%N.
Proof.
  unfold Std.index. rewrite <- position_None.
  destruct (Std.position pos); naive_solver.
Qed.


Lemma index_test b pos : (pos < n)%N -> Std.index b pos = Std.test b pos.
Proof.
  intros [i E]%position_lt. unfold Std.index, Std.test. by rewrite E.
Qed.

End StdFacts.

(** ** Capacity *)

Lemma size_eq_max (max : T) (s : EnumClassBitset max) :
  size s = static_cast_size_t max.
Proof. reflexivity. Qed.

Lemma static_cast_size_t_nonneg (member : T) :
  0 <= member < size_t_modulus -> static_cast_size_t member = Z.to_N member.
Proof.
  intros H. unfold static_cast_size_t. by rewrite Z.mod_small.
Qed.

(** C1, on the code: the set of the test suite's five-member enumeration
    ([max = TestEnum::E], ordinal 4) has [size() = 4] for every instance,
    not the [ordinal(max) + 1 = 5] that the specification and the test
    suite ([std::bitset<5> raw = e2.to_raw_bitset()]) expect. *)
Theorem size_TestEnum_is_4 :
  forall s : EnumClassBitset TestEnum.max,
    size s = 4%N /\ size s <> (Z.to_N TestEnum.max + 1)%N.
Proof. intros s. rewrite size_eq_max. by vm_compute. Qed.

(** ** Checked and unchecked access *)

Section Access.
Context {max : T}.
Implicit Types (s : EnumClassBitset max) (m : T).

Lemma test_Ok s m x :
  test s m = Ok x <-> vec_to_list (mBitset s) !! N.to_nat (enumIndex m) = Some x.
Proof. apply test_lookup. Qed.

Lemma test_Throw s m :
  test s m = Throw out_of_range <-> (size s <= enumIndex m)%N.
Proof. apply test_throw. Qed.

Lemma test_in_range s m :
  (enumIndex m < size s)%N <-> exists x, test s m = Ok x.
Proof.
  unfold test, Std.test, size, Std.size. split.
  - intros [i ->]%position_lt. by eexists.
  - intros [x H]. destruct (Std.position _) eqn:E; [|done].
    destruct (decide (enumIndex m < ImplSize max)%N); [done|].
    assert (Std.position (n:=ImplSize max) (enumIndex m) = None) as E'
      by (apply position_None; lia).
    congruence.
Qed.

Lemma result_map_Throw {A B} (f : A -> B) (r : result A) e :
  result_map f r = Throw e <-> r = Throw e.
Proof. destruct r; simpl; naive_solver. Qed.

Lemma set_Throw s m v :
  set s m v = Throw out_of_range <-> (size s <= enumIndex m)%N.
Proof. unfold set. rewrite result_map_Throw. apply set_throw. Qed.

Lemma reset_Throw s m :
  reset s m = Throw out_of_range <-> (size s <= enumIndex m)%N.
Proof. unfold reset. rewrite result_map_Throw. apply reset_throw. Qed.

Lemma flip_member_Throw s m :
  flip_member s m = Throw out_of_range <-> (size s <= enumIndex m)%N.
Proof. unfold flip_member. rewrite result_map_Throw. apply flip_at_throw. Qed.

End Access.



(** C10: whatever [max] the trait descriptor declares, [test(max)] throws
    [std::out_of_range] on every set: the storage has [size() =
    static_cast<std::size_t>(max)] bits, so the position of [max] itself
    is the first one outside it. *)
Theorem test_max_out_of_range (max : T) (s : EnumClassBitset max) :
  test s max = Throw out_of_range /\
  size s = enumIndex max /\
  length (vec_to_list (mBitset s)) = N.to_nat (enumIndex max).
Proof.
  split_and!.
  - apply test_Throw. rewrite size_eq_max. unfold enumIndex. lia.
  - reflexivity.
  - apply length_vec_to_list.
Qed.

(** ** Single-member updates *)

Section Updates.
Context {max : T}.
Implicit Types (s : EnumClassBitset max) (m : T).

Lemma position_in_range s m :
  (enumIndex m < size s)%N ->
  exists i, Std.position (n:=ImplSize max) (enumIndex m) = Some i.
Proof. apply position_lt. Qed.

Lemma set_in_range s m v :
  (enumIndex m < size s)%N ->
  exists s', set s m v = Ok s' /\ test s' m = Ok v.
Proof.
  intros [i E]%position_in_range. unfold set, test, Std.set, Std.test.
  rewrite E. simpl. eexists; split; [done|]. simpl.
  f_equal. apply vlookup_insert.
Qed.

Lemma reset_in_range s m :
  (enumIndex m < size s)%N ->
  exists s', reset s m = Ok s' /\ test s' m = Ok false.
Proof.
  intros [i E]%position_in_range. unfold reset, test, Std.reset, Std.test.
  rewrite E. simpl. eexists; split; [done|]. simpl.
  f_equal. apply vlookup_insert.
Qed.

Lemma flip_member_in_range s m :
  (enumIndex m < size s)%N ->
  exists x s', test s m = Ok x /\ flip_member s m = Ok s' /\ test s' m = Ok (negb x).
Proof.
  intros [i E]%position_in_range. unfold flip_member, test, Std.flip_at, Std.test.
  rewrite E. simpl. do 2 eexists; split_and!; [done..|]. simpl.
  f_equal. apply vlookup_insert.
Qed.

End Updates.

(** X1: for every member whose ordinal is below [size()], [set(m)] makes
    [test(m)] true, a following [reset(m)] makes it false, and [flip(m)]
    toggles it. *)
Theorem set_reset_flip_in_range (max : T) (s : EnumClassBitset max) (m : T) :
  (enumIndex m < size s)%N ->
  (exists s1 s2, set s m true = Ok s1 /\ test s1 m = Ok true /\
                 reset s1 m = Ok s2 /\ test s2 m = Ok false) /\
  (exists x s3, test s m = Ok x /\ flip_member s m = Ok s3 /\
                test s3 m = Ok (negb x)).
Proof.
  intros H. split; [|by apply flip_member_in_range].
  destruct (set_in_range s m true H) as (s1 & E1 & T1).
  destruct (reset_in_range s1 m H) as (s2 & E2 & T2).
  by exists s1, s2.
Qed.

Lemma set_reset_flip_in_range_witness :
  (exists s1 s2, set (EnumClassBitset_ctor TestEnum.max) TestEnum.B true = Ok s1 /\
                 test s1 TestEnum.B = Ok true /\
                 reset s1 TestEnum.B = Ok s2 /\ test s2 TestEnum.B = Ok false) /\
  (exists x s3, test (EnumClassBitset_ctor TestEnum.max) TestEnum.B = Ok x /\
                flip_member (EnumClassBitset_ctor TestEnum.max) TestEnum.B = Ok s3 /\
                test s3 TestEnum.B = Ok (negb x)).
Proof.
  apply (set_reset_flip_in_range TestEnum.max
           (EnumClassBitset_ctor TestEnum.max) TestEnum.B).
  by vm_compute.
Defined.

(** C4, on the code: for the last member [max] of any enumeration (such
    as [TestEnum::E], which the test suite sets), [set], [reset] and
    [flip(member)] throw [std::out_of_range] and leave no updated set on
    which [test(max)] could be true. *)
Theorem set_max_out_of_range (max : T) (s : EnumClassBitset max) :
  (forall v, set s max v = Throw out_of_range) /\
  reset s max = Throw out_of_range /\
  flip_member s max = Throw out_of_range /\
  result_bind (set s max true) (fun s' => test s' max) <> Ok true.
Proof.
  assert (size s <= enumIndex max)%N as H by (rewrite size_eq_max; unfold enumIndex; lia).
  assert (forall v, set s max v = Throw out_of_range) as Hset
    by (intros v; by apply set_Throw).
  split_and!; [done| by apply reset_Throw | by apply flip_member_Throw |].
  by rewrite Hset.
Qed.

(** ** Set algebra *)

Section Algebra.
Context {max : T}.
Implicit Types (a b : EnumClassBitset max) (m : T).

Lemma test_op_and a b m :
  test (op_and a b) m =
  result_bind (test a m) (fun x => if x then test b m else Ok false).
Proof.
  unfold test, op_and, Std.and_assign, Std.test. simpl.
  destruct (Std.position _) as [i|]; simpl; [|done].
  rewrite vlookup_zip_with. by destruct (mBitset a !!! i).
Qed.

Lemma test_op_or a b m :
  test (op_or a b) m =
  result_bind (test a m) (fun x => if x then Ok true else test b m).
Proof.
  unfold test, op_or, Std.or_assign, Std.test. simpl.
  destruct (Std.position _) as [i|]; simpl; [|done].
  rewrite vlookup_zip_with. by destruct (mBitset a !!! i).
Qed.

Lemma test_op_xor a b m :
  test (op_xor a b) m =
  result_bind (test a m) (fun x =>
  result_bind (test b m) (fun y => Ok (negb (eqb x y)))).
Proof.
  unfold test, op_xor, Std.xor_assign, Std.test. simpl.
  destruct (Std.position _) as [i|]; simpl; [|done].
  rewrite vlookup_zip_with.
  by destruct (mBitset a !!! i), (mBitset b !!! i).
Qed.

Lemma test_flip a m : test (flip a) m = result_map negb (test a m).
Proof.
  unfold test, flip, Std.flip, Std.test. simpl.
  destruct (Std.position _) as [i|]; simpl; [|done].
  by rewrite vlookup_map.
Qed.

Lemma test_op_not a m : test (op_not a) m = result_map negb (test a m).
Proof. apply test_flip. Qed.

End Algebra.

(** Evaluating [(a & b).test(m)] has the outcome of evaluating
    [a.test(m) && b.test(m)], and likewise for [|] with [||], [^] with
    [!=] and [~] with [!]. *)
Lemma set_algebra_outcomes (max : T) (a b : EnumClassBitset max) (m : T) :
  (test (op_and a b) m =
     result_bind (test a m) (fun x => if x then test b m else Ok false)) /\
  (test (op_or a b) m =
     result_bind (test a m) (fun x => if x then Ok true else test b m)) /\
  (test (op_xor a b) m =
     result_bind (test a m) (fun x =>
     result_bind (test b m) (fun y => Ok (negb (eqb x y))))) /\
  (test (op_not a) m = result_map negb (test a m)).
Proof.
  split_and!.
  - apply test_op_and.
  - apply test_op_or.
  - apply test_op_xor.
  - apply test_op_not.
Qed.

(** C5, on the code: for the last member [max] of any enumeration (such
    as [TestEnum::E]), none of [(a & b).test(max)], [(a | b).test(max)],
    [(a ^ b).test(max)], [(~a).test(max)], [a.test(max)] and
    [b.test(max)] returns a boolean: each throws [std::out_of_range], so
    the four boolean equations of the claim have no value on either side
    for that member. *)
Theorem set_algebra_test_max (max : T) (a b : EnumClassBitset max) :
  test (op_and a b) max = Throw out_of_range /\
  test (op_or a b) max = Throw out_of_range /\
  test (op_xor a b) max = Throw out_of_range /\
  test (op_not a) max = Throw out_of_range /\
  test a max = Throw out_of_range /\
  test b max = Throw out_of_range /\
  (forall x, test (op_and a b) max <> Ok x).
Proof.
  assert (forall s : EnumClassBitset max, test s max = Throw out_of_range) as H.
  { intros s. apply test_Throw. rewrite size_eq_max. unfold enumIndex. lia. }
  split_and!; try apply H. intros x. by rewrite H.
Qed.

(** X23: for every member [m] whose ordinal is below [size()], [test]
    returns a boolean on [a], [b], [a & b], [a | b], [a ^ b] and [~a], and
    [(a & b).test(m)] is [a.test(m) && b.test(m)], [(a | b).test(m)] is
    [a.test(m) || b.test(m)], [(a ^ b).test(m)] is
    [a.test(m) != b.test(m)] and [(~a).test(m)] is [!a.test(m)]. *)
Theorem set_algebra_test_in_range (max : T) (a b : EnumClassBitset max) (m : T) :
  (enumIndex m < size a)%N ->
  exists x y,
    test a m = Ok x /\ test b m = Ok y /\
    test (op_and a b) m = Ok (x && y) /\
    test (op_or a b) m = Ok (x || y) /\
    test (op_xor a b) m = Ok (negb (eqb x y)) /\
    test (op_not a) m = Ok (negb x).
Proof.
  intros H.
  destruct (proj1 (test_in_range a m) H) as [x Hx].
  destruct (proj1 (test_in_range b m) H) as [y Hy].
  exists x, y.
  rewrite test_op_and, test_op_or, test_op_xor, test_op_not, Hx, Hy. simpl.
  split_and!; try done; by destruct x.
Qed.

Lemma set_algebra_test_in_range_witness :
  exists x y,
    test TestEnum.only_A TestEnum.B = Ok x /\
    test TestEnum.A_and_B TestEnum.B = Ok y /\
    test (op_and TestEnum.only_A TestEnum.A_and_B) TestEnum.B = Ok (x && y) /\
    test (op_or TestEnum.only_A TestEnum.A_and_B) TestEnum.B = Ok (x || y) /\
    test (op_xor TestEnum.only_A TestEnum.A_and_B) TestEnum.B = Ok (negb (eqb x y)) /\
    test (op_not TestEnum.only_A) TestEnum.B = Ok (negb x).
Proof.
  apply (set_algebra_test_in_range TestEnum.max TestEnum.only_A TestEnum.A_and_B
           TestEnum.B).
  by vm_compute.
Defined.

(** ** Operators on objects in the store *)

Section StoreFacts.
Context {max : T}.
Implicit Types (h : gmap loc (object max)) (s : EnumClassBitset max) (l : loc).

Lemma fresh_lookup h : h !! fresh (dom h) = None.
Proof. apply not_elem_of_dom, is_fresh. Qed.

Lemma fresh_ne h l o : h !! l = Some o -> fresh (dom h) <> l.
Proof. intros H E. rewrite <- E, fresh_lookup in H. done. Qed.

Lemma deref_Some h l s : h !! l = Some (EnumSet s) -> deref l h = Ok (s, h).
Proof. unfold deref. by intros ->. Qed.

Lemma assign_Some h l s s' :
  h !! l = Some (EnumSet s) -> assign l s' h = Ok (tt, <[l := EnumSet s']> h).
Proof. unfold assign. by intros ->. Qed.

Lemma call_Some {A} h l s (f : EnumClassBitset max -> result A) :
  h !! l = Some (EnumSet s) ->
  call max l f h = result_map (fun a => (a, h)) (f s).
Proof. intros H. unfold call, bind. by rewrite (deref_Some _ _ _ H). Qed.

Lemma call_mut_Some h l s s' (f : EnumClassBitset max -> result (EnumClassBitset max)) :
  h !! l = Some (EnumSet s) -> f s = Ok s' ->
  call_mut max l f h = Ok (l, <[l := EnumSet s']> h).
Proof.
  intros H Hf. unfold call_mut, bind, lift, ret.
  rewrite (deref_Some _ _ _ H), Hf. simpl.
  by rewrite (assign_Some _ _ _ _ H).
Qed.

(** A compound assignment [f] updates the left operand where it is and
    returns the reference to it. *)
Lemma op_assign_at_Some (f : EnumClassBitset max -> EnumClassBitset max -> EnumClassBitset max)
    h (this other : loc) s o :
  h !! this = Some (EnumSet s) -> h !! other = Some (EnumSet o) ->
  (let* o := deref other in call_mut max this (fun s => Ok (f s o))) h
  = Ok (this, <[this := EnumSet (f s o)]> h).
Proof.
  intros Hs Ho. unfold bind at 1. rewrite (deref_Some _ _ _ Ho).
  by apply (call_mut_Some _ _ s).
Qed.

(** A binary operator built on the compound assignment [f] returns the
    combined value and leaves the store as it found it. *)
Lemma op_binary_at_Some (f : EnumClassBitset max -> EnumClassBitset max -> EnumClassBitset max)
    h (this other : loc) s o :
  h !! this = Some (EnumSet s) -> h !! other = Some (EnumSet o) ->
  (let* s := deref this in
   let* newBitset := new_local (EnumSet s) in
   let* _ := (let* o := deref other in call_mut max newBitset (fun s => Ok (f s o))) in
   let* r := deref newBitset in
   let* _ := end_local newBitset in
   ret r) h
  = Ok (f s o, h).
Proof.
  intros Hs Ho. unfold bind at 1. rewrite (deref_Some _ _ _ Hs).
  unfold bind at 1, new_local. cbv zeta.
  set (l := fresh (dom h)).
  assert (h !! l = None) as Hl by apply fresh_lookup.
  assert (l <> this) as Hls by by apply (fresh_ne _ _ _ Hs).
  assert (l <> other) as Hlo by by apply (fresh_ne _ _ _ Ho).
  unfold bind at 1.
  rewrite (op_assign_at_Some f (<[l:=EnumSet s]> h) l other s o);
    [|apply lookup_insert_eq|by rewrite lookup_insert_ne].
  rewrite insert_insert_eq.
  unfold bind at 1. rewrite (deref_Some _ _ (f s o)) by apply lookup_insert_eq.
  unfold bind, end_local, ret. by rewrite delete_insert_id.
Qed.

Lemma op_not_at_Some h (this : loc) s :
  h !! this = Some (EnumSet s) -> op_not_at max this h = Ok (op_not s, h).
Proof.
  intros Hs. unfold op_not_at. unfold bind at 1. rewrite (deref_Some _ _ _ Hs).
  unfold bind at 1, new_local. cbv zeta.
  set (l := fresh (dom h)).
  assert (h !! l = None) as Hl by apply fresh_lookup.
  unfold bind at 1.
  rewrite (call_mut_Some (<[l:=EnumSet s]> h) l s (flip s));
    [|apply lookup_insert_eq|done].
  rewrite insert_insert_eq.
  unfold bind at 1. rewrite (deref_Some _ _ (flip s)) by apply lookup_insert_eq.
  unfold bind, end_local, ret. by rewrite delete_insert_id.
Qed.

End StoreFacts.

(** C6: with [a] and [b] references to sets [sa] and [sb] in a store [h]
    (possibly the same object), [a & b], [a | b], [a ^ b] and [~a] return a
    new set and leave the store, hence both operands, exactly as it was;
    [a &= b], [a |= b] and [a ^= b] return the reference [a] and change the
    store at [a] only, which then holds the combined set. *)
Theorem set_algebra_frame (max : T) (h : gmap loc (object max)) (a b : loc)
    (sa sb : EnumClassBitset max) :
  h !! a = Some (EnumSet sa) -> h !! b = Some (EnumSet sb) ->
  op_and_at max a b h = Ok (op_and sa sb, h) /\
  op_or_at max a b h = Ok (op_or sa sb, h) /\
  op_xor_at max a b h = Ok (op_xor sa sb, h) /\
  op_not_at max a h = Ok (op_not sa, h) /\
  op_and_assign_at max a b h = Ok (a, <[a := EnumSet (op_and_assign sa sb)]> h) /\
  op_or_assign_at max a b h = Ok (a, <[a := EnumSet (op_or_assign sa sb)]> h) /\
  op_xor_assign_at max a b h = Ok (a, <[a := EnumSet (op_xor_assign sa sb)]> h).
Proof.
  intros Ha Hb. split_and!.
  - by apply (op_binary_at_Some op_and_assign).
  - by apply (op_binary_at_Some op_or_assign).
  - by apply (op_binary_at_Some op_xor_assign).
  - by apply op_not_at_Some.
  - by apply (op_assign_at_Some op_and_assign).
  - by apply (op_assign_at_Some op_or_assign).
  - by apply (op_assign_at_Some op_xor_assign).
Qed.

Lemma set_algebra_frame_witness :
  op_and_at TestEnum.max 1 2 TestEnum.two_sets
    = Ok (op_and TestEnum.only_A TestEnum.A_and_B, TestEnum.two_sets) /\
  op_or_at TestEnum.max 1 2 TestEnum.two_sets
    = Ok (op_or TestEnum.only_A TestEnum.A_and_B, TestEnum.two_sets) /\
  op_xor_at TestEnum.max 1 2 TestEnum.two_sets
    = Ok (op_xor TestEnum.only_A TestEnum.A_and_B, TestEnum.two_sets) /\
  op_not_at TestEnum.max 1 TestEnum.two_sets
    = Ok (op_not TestEnum.only_A, TestEnum.two_sets) /\
  op_and_assign_at TestEnum.max 1 2 TestEnum.two_sets
    = Ok (1%positive, <[1%positive := EnumSet (op_and_assign TestEnum.only_A TestEnum.A_and_B)]>
                        TestEnum.two_sets) /\
  op_or_assign_at TestEnum.max 1 2 TestEnum.two_sets
    = Ok (1%positive, <[1%positive := EnumSet (op_or_assign TestEnum.only_A TestEnum.A_and_B)]>
                        TestEnum.two_sets) /\
  op_xor_assign_at TestEnum.max 1 2 TestEnum.two_sets
    = Ok (1%positive, <[1%positive := EnumSet (op_xor_assign TestEnum.only_A TestEnum.A_and_B)]>
                        TestEnum.two_sets).
Proof.
  apply (set_algebra_frame TestEnum.max TestEnum.two_sets 1 2
           TestEnum.only_A TestEnum.A_and_B); reflexivity.
Defined.

(** ** Iterators: equality *)

(** C8: two iterators compare equal exactly when they refer to the same
    set object (the same address) and have the same index; iterators on
    different set objects are never equal, whatever their indices and
    whatever the sets hold. *)
Theorem iterator_eq_iff (i j : iterator) :
  (iterator_eq i j = true <-> bitset i = bitset j /\ index i = index j) /\
  (iterator_ne i j = negb (iterator_eq i j)) /\
  (bitset i <> bitset j -> iterator_eq i j = false /\ iterator_ne i j = true).
Proof.
  unfold iterator_ne, iterator_eq. split_and!.
  - rewrite andb_true_iff, bool_decide_eq_true, N.eqb_eq. done.
  - done.
  - intros H. by rewrite bool_decide_eq_false_2.
Qed.

(** ** Raw export *)

Section RawExport.
Context {max : T}.
Implicit Types (h : gmap loc (object max)) (s : EnumClassBitset max) (l : loc).

Lemma to_raw_bitset_test s m :
  Std.test (to_raw_bitset s) (enumIndex m) = test s m.
Proof. reflexivity. Qed.

Lemma to_raw_bitset_at_Some h l s :
  h !! l = Some (EnumSet s) ->
  to_raw_bitset_at max l h
  = Ok (fresh (dom h), <[fresh (dom h) := RawBits (to_raw_bitset s)]> h).
Proof.
  intros H. unfold to_raw_bitset_at, bind.
  by rewrite (call_Some _ _ _ _ H).
Qed.

Lemma raw_call_mut_Some h raw b b' f :
  h !! raw = Some (RawBits b) -> f b = Ok b' ->
  raw_call_mut max raw f h = Ok (raw, <[raw := RawBits b']> h).
Proof.
  intros H Hf. unfold raw_call_mut, bind, deref_raw, assign_raw, lift, ret.
  rewrite H, Hf. simpl. by rewrite H.
Qed.

End RawExport.

(** C9, on the code: the exported raw bit-vector has [size()] bits,
    positions 0 to [ordinal(max) - 1]; at the ordinal of [max] itself,
    which is in the domain of the claim, it has no bit to read
    ([test] throws, [operator[]] is undefined) and [s.test(max)] throws
    as well, so there is nothing to compare. *)
Theorem to_raw_bitset_max (max : T) (s : EnumClassBitset max) :
  Std.size (to_raw_bitset s) = enumIndex max /\
  length (vec_to_list (to_raw_bitset s)) = N.to_nat (enumIndex max) /\
  vec_to_list (to_raw_bitset s) !! N.to_nat (enumIndex max) = None /\
  Std.test (to_raw_bitset s) (enumIndex max) = Throw out_of_range /\
  Std.index (to_raw_bitset s) (enumIndex max) = Undefined /\
  test s max = Throw out_of_range.
Proof.
  assert (ImplSize max <= enumIndex max)%N as H by (unfold ImplSize, enumIndex; lia).
  split_and!.
  - reflexivity.
  - apply length_vec_to_list.
  - apply lookup_ge_None. rewrite length_vec_to_list. unfold ImplSize, enumIndex. lia.
  - by apply test_throw.
  - by apply index_undefined.
  - by apply test_Throw.
Qed.

(** X24: for every member [m] whose ordinal is below [size()], bit
    [enumIndex m] of the exported raw bit-vector is the boolean that
    [test(m)] returns. The export is a copy in a cell of its own: after
    [raw = s.to_raw_bitset()] the store holds the copy at a fresh address
    and [s] where it was; whatever is then stored in the cell of [raw],
    and when that cell is freed, the cell of [s] is unchanged; and a call
    of any mutating member [f] on [raw] either returns, with [s]
    unchanged and [test] on [s] as before, or ends as [f] does on the
    copy. *)
Theorem to_raw_bitset_copy (max : T) (h : gmap loc (object max)) (this : loc)
    (s : EnumClassBitset max) :
  h !! this = Some (EnumSet s) ->
  (forall m, (enumIndex m < size s)%N ->
     exists x, test s m = Ok x /\
               vec_to_list (to_raw_bitset s) !! N.to_nat (enumIndex m) = Some x /\
               Std.test (to_raw_bitset s) (enumIndex m) = Ok x /\
               Std.index (to_raw_bitset s) (enumIndex m) = Ok x) /\
  exists raw,
    to_raw_bitset_at max this h
      = Ok (raw, <[raw := RawBits (to_raw_bitset s)]> h) /\
    raw <> this /\
    h !! raw = None /\
    (forall o : object max,
       (<[raw := o]> (<[raw := RawBits (to_raw_bitset s)]> h)) !! this
       = Some (EnumSet s)) /\
    delete raw (<[raw := RawBits (to_raw_bitset s)]> h) = h /\
    (forall f : Std.bitset (ImplSize max) -> result (Std.bitset (ImplSize max)),
       match raw_call_mut max raw f (<[raw := RawBits (to_raw_bitset s)]> h) with
       | Ok (r, h') =>
         r = raw /\ h' !! this = Some (EnumSet s) /\ delete raw h' = h /\
         (forall m, call max this (fun s => test s m) h'
                    = result_map (fun x => (x, h')) (test s m))
       | Throw e => f (to_raw_bitset s) = Throw e
       | Undefined => f (to_raw_bitset s) = Undefined
       | OutOfFuel => f (to_raw_bitset s) = OutOfFuel
       end).
Proof.
  intros H. split.
  - intros m Hm. destruct (proj1 (test_in_range s m) Hm) as [x Hx].
    exists x. split_and!; [done| |done|].
    + by apply test_Ok.
    + rewrite <- Hx. by apply index_test.
  - set (raw := fresh (dom h)).
    assert (h !! raw = None) as Hraw by apply fresh_lookup.
    assert (raw <> this) as Hne by by apply (fresh_ne _ _ _ H).
    exists raw. split_and!.
    + by apply to_raw_bitset_at_Some.
    + done.
    + done.
    + intros o. by rewrite !lookup_insert_ne.
    + by apply delete_insert_id.
    + intros f. destruct (f (to_raw_bitset s)) as [b'| | |] eqn:Hf.
      * rewrite (raw_call_mut_Some _ raw (to_raw_bitset s) b' f);
          [|apply lookup_insert_eq|done].
        rewrite insert_insert_eq.
        assert ((<[raw := RawBits b']> h) !! this = Some (EnumSet s)) as H'
          by by rewrite lookup_insert_ne.
        split_and!; [done|done|by apply delete_insert_id|].
        intros m. by apply (call_Some _ _ s).
      * unfold raw_call_mut, bind, deref_raw, lift.
        rewrite lookup_insert_eq, Hf. done.
      * unfold raw_call_mut, bind, deref_raw, lift.
        rewrite lookup_insert_eq, Hf. done.
      * unfold raw_call_mut, bind, deref_raw, lift.
        rewrite lookup_insert_eq, Hf. done.
Qed.

Lemma to_raw_bitset_copy_witness :
  (forall m, (enumIndex m < size TestEnum.A_and_B)%N ->
     exists x, test TestEnum.A_and_B m = Ok x /\
               vec_to_list (to_raw_bitset TestEnum.A_and_B) !! N.to_nat (enumIndex m)
               = Some x /\
               Std.test (to_raw_bitset TestEnum.A_and_B) (enumIndex m) = Ok x /\
               Std.index (to_raw_bitset TestEnum.A_and_B) (enumIndex m) = Ok x) /\
  exists raw,
    to_raw_bitset_at TestEnum.max 2 TestEnum.two_sets
      = Ok (raw, <[raw := RawBits (to_raw_bitset TestEnum.A_and_B)]> TestEnum.two_sets) /\
    raw <> 2%positive /\
    TestEnum.two_sets !! raw = None /\
    (forall o : object TestEnum.max,
       (<[raw := o]> (<[raw := RawBits (to_raw_bitset TestEnum.A_and_B)]>
                        TestEnum.two_sets)) !! 2%positive
       = Some (EnumSet TestEnum.A_and_B)) /\
    delete raw (<[raw := RawBits (to_raw_bitset TestEnum.A_and_B)]> TestEnum.two_sets)
    = TestEnum.two_sets /\
    (forall f : Std.bitset (ImplSize TestEnum.max)
                -> result (Std.bitset (ImplSize TestEnum.max)),
       match raw_call_mut TestEnum.max raw f
               (<[raw := RawBits (to_raw_bitset TestEnum.A_and_B)]> TestEnum.two_sets) with
       | Ok (r, h') =>
         r = raw /\ h' !! 2%positive = Some (EnumSet TestEnum.A_and_B) /\
         delete raw h' = TestEnum.two_sets /\
         (forall m, call TestEnum.max 2 (fun s => test s m) h'
                    = result_map (fun x => (x, h')) (test TestEnum.A_and_B m))
       | Throw e => f (to_raw_bitset TestEnum.A_and_B) = Throw e
       | Undefined => f (to_raw_bitset TestEnum.A_and_B) = Undefined
       | OutOfFuel => f (to_raw_bitset TestEnum.A_and_B) = OutOfFuel
       end).
Proof.
  apply (to_raw_bitset_copy TestEnum.max TestEnum.two_sets 2 TestEnum.A_and_B).
  reflexivity.
Defined.

(** ** Iteration *)

Section Iteration.
Context {max : T}.
Hypothesis Hmax : 0 <= max <= int_max.
Variable h : gmap loc (object max).
Variable l : loc.
Variable s : EnumClassBitset max.
Hypothesis Hl : h !! l = Some (EnumSet s).

Lemma ImplSize_nonneg : ImplSize max = Z.to_N max.
Proof.
  apply static_cast_size_t_nonneg. unfold int_max, size_t_modulus in *. lia.
Qed.

Lemma cast_roundtrip (i : N) :
  (i < ImplSize max)%N -> enumIndex (static_cast_T i) = i.
Proof.
  rewrite ImplSize_nonneg. intros H.
  unfold enumIndex, static_cast_size_t, static_cast_T,
    int_min, int_modulus, size_t_modulus, int_max in *.
  rewrite (Z.mod_small (Z.of_N i - _)) by lia.
  rewrite Z.mod_small by lia. lia.
Qed.

Lemma size_t_succ_in_range (i : N) :
  (i < ImplSize max)%N -> size_t_succ i = (i + 1)%N.
Proof.
  rewrite ImplSize_nonneg. intros H.
  unfold size_t_succ, size_t_modulus, int_max in *.
  apply N.mod_small. lia.
Qed.

Lemma test_cast (i : N) :
  (i < ImplSize max)%N -> test s (static_cast_T i) = Ok (is_set s i).
Proof.
  intros H. unfold test. rewrite (cast_roundtrip i H).
  unfold is_set. destruct (position_lt (n:=ImplSize max) i H) as [j E].
  unfold Std.test. rewrite E.
  by destruct (mBitset s !!! j).
Qed.

Lemma call_size : call max l (fun s => Ok (size s)) h = Ok (ImplSize max, h).
Proof. by rewrite (call_Some _ _ _ _ Hl). Qed.

Lemma call_test (i : N) :
  (i < ImplSize max)%N ->
  call max l (fun s => test s (static_cast_T i)) h = Ok (is_set s i, h).
Proof. intros H. by rewrite (call_Some _ _ _ _ Hl), (test_cast i H). Qed.

(** One step of [findNext] on an iterator of the set at [l]. *)
Lemma findNext_end fuel (it : iterator) :
  bitset it = l -> (ImplSize max <= index it)%N ->
  findNext max fuel it h = Ok (it, h).
Proof.
  intros Hb Hi. destruct fuel; simpl; unfold bind; rewrite Hb, call_size;
    by rewrite (proj2 (N.ltb_ge _ _) Hi).
Qed.

Lemma findNext_step fuel (it : iterator) :
  bitset it = l -> (index it < ImplSize max)%N ->
  findNext max (S fuel) it h =
  if is_set s (index it)
  then Ok ({| bitset := l; index := index it; value := static_cast_T (index it) |}, h)
  else findNext max fuel
         {| bitset := l; index := (index it + 1)%N;
            value := static_cast_T (index it) |} h.
Proof.
  intros Hb Hi. simpl. unfold bind at 1. rewrite Hb, call_size.
  rewrite (proj2 (N.ltb_lt _ _) Hi). unfold bind at 1.
  rewrite (call_test _ Hi), (size_t_succ_in_range _ Hi).
  by destruct (is_set s (index it)).
Qed.

(** [findNext] stops at the first set position at or after the index. *)
Lemma findNext_first (k fuel : nat) (it : iterator) :
  bitset it = l ->
  (N.to_nat (index it) + k = N.to_nat (ImplSize max))%nat ->
  (k <= fuel)%nat ->
  exists v,
    findNext max fuel it h
    = Ok ({| bitset := l; index := first_from s k (index it); value := v |}, h) /\
    ((first_from s k (index it) < ImplSize max)%N ->
     v = static_cast_T (first_from s k (index it))).
Proof.
  revert fuel it. induction k as [|k IH]; intros fuel it Hb Hk Hf.
  - exists (value it). simpl. split; [|lia].
    rewrite findNext_end; [|done|lia]. destruct it; simpl in *; by subst.
  - destruct fuel as [|fuel]; [lia|].
    rewrite findNext_step; [|done|lia]. simpl.
    destruct (is_set s (index it)) eqn:E.
    + eexists; split; [done|done].
    + apply (IH fuel {| bitset := l; index := (index it + 1)%N;
                        value := static_cast_T (index it) |}); simpl; [done|lia|lia].
Qed.

Lemma range_for_loop_end fuel (it : iterator) :
  bitset it = l -> index it = ImplSize max ->
  range_for_loop max fuel it (iterator_ctor l (static_cast_size_t max)) h = Ok ([], h).
Proof.
  intros Hb Hi.
  assert (iterator_ne it (iterator_ctor l (static_cast_size_t max)) = false) as E.
  { unfold iterator_ne, iterator_eq. simpl. rewrite Hb, Hi.
    rewrite bool_decide_eq_true_2 by done. by rewrite N.eqb_refl. }
  destruct fuel; simpl; by rewrite E.
Qed.

(** Positioning with [findNext] and then running the loop visits the set
    positions from the index on, in order. *)
Lemma findNext_range_for_loop (k f1 f2 : nat) (it : iterator) :
  bitset it = l ->
  (N.to_nat (index it) + k = N.to_nat (ImplSize max))%nat ->
  (k <= f1)%nat -> (k <= f2)%nat ->
  (let* it' := findNext max f1 it in
   range_for_loop max f2 it' (iterator_ctor l (static_cast_size_t max))) h
  = Ok (static_cast_T <$> positions_from s k (index it), h).
Proof.
  revert f1 f2 it. induction k as [|k IH]; intros f1 f2 it Hb Hk H1 H2.
  - unfold bind. rewrite findNext_end; [|done|lia].
    rewrite range_for_loop_end; [done|done|lia].
  - destruct f1 as [|f1]; [lia|]. destruct f2 as [|f2]; [lia|].
    unfold bind at 1. rewrite findNext_step; [|done|lia]. simpl positions_from.
    destruct (is_set s (index it)) eqn:E.
    + assert (iterator_ne
        {| bitset := l; index := index it; value := static_cast_T (index it) |}
        (iterator_ctor l (static_cast_size_t max)) = true) as Hne.
      { unfold iterator_ne, iterator_eq. simpl.
        rewrite bool_decide_eq_true_2 by done. simpl.
        apply negb_true_iff, N.eqb_neq. fold (ImplSize max). lia. }
      cbn [range_for_loop]. rewrite Hne. unfold op_incr, op_deref. cbn [bitset index value].
      rewrite size_t_succ_in_range by lia.
      set (it1 := {| bitset := l; index := (index it + 1)%N;
                     value := static_cast_T (index it) |}).
      assert (IH' := IH (S f2) f2 it1 eq_refl
                      ltac:(simpl; lia) ltac:(lia) ltac:(lia)).
      unfold bind in *.
      destruct (findNext max (S f2) it1 h) as [[it' h']| | |] eqn:EF; try done.
      by rewrite IH'.
    + by apply IH; simpl; try lia.
Qed.

Lemma range_for_positions (fuel : nat) :
  (N.to_nat (ImplSize max) <= fuel)%nat ->
  range_for max fuel l h
  = Ok (static_cast_T <$> positions_from s (N.to_nat (ImplSize max)) 0, h).
Proof.
  intros Hf.
  apply (findNext_range_for_loop (N.to_nat (ImplSize max)) fuel fuel
           (iterator_ctor l 0)); [done|simpl; lia|done|done].
Qed.

Lemma begin_first (fuel : nat) :
  (N.to_nat (ImplSize max) <= fuel)%nat ->
  exists v,
    begin max fuel l h
    = Ok ({| bitset := l; index := first_from s (N.to_nat (ImplSize max)) 0;
             value := v |}, h).
Proof.
  intros Hf.
  destruct (findNext_first (N.to_nat (ImplSize max)) fuel (iterator_ctor l 0))
    as (v & E & _); [done|simpl; lia|done|].
  by exists v.
Qed.

Lemma elem_of_positions_from (k : nat) (i j : N) :
  j ∈ positions_from s k i <-> (i <= j < i + N.of_nat k)%N /\ is_set s j = true.
Proof.
  revert i. induction k as [|k IH]; intros i; simpl.
  - rewrite elem_of_nil. lia.
  - destruct (is_set s i) eqn:E.
    + rewrite elem_of_cons, IH. split.
      * intros [->|[? ?]]; split; try done; lia.
      * intros [? ?]. destruct (decide (j = i)) as [->|]; [by left|right].
        split; [lia|done].
    + rewrite IH. split.
      * intros [? ?]. split; [lia|done].
      * intros [? ?]. destruct (decide (j = i)) as [->|]; [congruence|].
        split; [lia|done].
Qed.

Lemma positions_from_sorted (k : nat) (i : N) :
  StronglySorted N.lt (positions_from s k i).
Proof.
  revert i. induction k as [|k IH]; intros i; simpl; [constructor|].
  destruct (is_set s i); [|apply IH].
  constructor; [apply IH|].
  apply Forall_forall. intros j [? _]%elem_of_positions_from. lia.
Qed.

Lemma positions_from_none (k : nat) (i : N) :
  (forall j, is_set s j = false) -> positions_from s k i = [].
Proof.
  intros H. revert i. induction k as [|k IH]; intros i; simpl; [done|].
  by rewrite H.
Qed.

Lemma positions_from_all (k : nat) (i : N) :
  (forall j, (i <= j < i + N.of_nat k)%N -> is_set s j = true) ->
  positions_from s k i = (fun x => (i + N.of_nat x)%N) <$> seq 0 k.
Proof.
  revert i. induction k as [|k IH]; intros i H; simpl; [done|].
  rewrite H by lia. f_equal; [lia|].
  rewrite IH by (intros j Hj; apply H; lia).
  rewrite <- fmap_S_seq, <- list_fmap_compose. apply list_fmap_ext.
  intros _ x _. simpl. lia.
Qed.

Lemma first_from_none (k : nat) (i : N) :
  (forall j, is_set s j = false) -> first_from s k i = (i + N.of_nat k)%N.
Proof.
  intros H. revert i. induction k as [|k IH]; intros i; simpl; [lia|].
  rewrite H, IH. lia.
Qed.

End Iteration.

(** ** Counting: [all], [any], [none] *)

Section Counting.
Context {n : N}.
Implicit Types (b : Std.bitset n).

Lemma filter_length_Forall {A} (P : A -> Prop) `{forall x, Decision (P x)} (l : list A) :
  length (filter P l) = length l -> Forall P l.
Proof.
  induction l as [|x l IH]; [constructor|].
  rewrite filter_cons. destruct (decide (P x)); simpl; intros E.
  - constructor; [done|]. apply IH. lia.
  - pose proof (length_filter P l). lia.
Qed.

Lemma filter_length_nil {A} (P : A -> Prop) `{forall x, Decision (P x)} (l : list A) :
  length (filter P l) = 0%nat -> Forall (fun x => ~ P x) l.
Proof.
  intros E%nil_length_inv. apply Forall_forall. intros x Hx HP.
  by apply (filter_nil_not_elem_of P l x).
Qed.

Lemma all_true b : Std.all b = true -> forall i, b !!! i = true.
Proof.
  unfold Std.all, Std.count, Std.size. intros E%N.eqb_eq i.
  assert (length (filter (fun x => x = true) (vec_to_list b)) = length (vec_to_list b)) as E'
    by (rewrite length_vec_to_list; lia).
  apply filter_length_Forall in E'.
  by apply (proj1 (Forall_vlookup _ _) E' i).
Qed.

Lemma none_true b : Std.none b = true -> forall i, b !!! i = false.
Proof.
  unfold Std.none, Std.count. intros E%N.eqb_eq i.
  assert (length (filter (fun x => x = true) (vec_to_list b)) = 0%nat) as E' by lia.
  apply filter_length_nil in E'.
  pose proof (proj1 (Forall_vlookup _ _) E' i) as Hi. simpl in Hi.
  by destruct (b !!! i).
Qed.

Lemma count_zero : Std.count (Std.zero (n:=n)) = 0%N.
Proof.
  unfold Std.count, Std.zero. rewrite vec_to_list_replicate.
  induction (N.to_nat n) as [|k IH]; [done|]. simpl.
  rewrite filter_cons_False by done. apply IH.
Qed.

Lemma any_none b : Std.any b = negb (Std.none b).
Proof. reflexivity. Qed.

End Counting.

Section IsSet.
Context {max : T}.
Implicit Types (s : EnumClassBitset max).

Lemma is_set_lookup s (j : N) (i : fin (N.to_nat (ImplSize max))) :
  Std.position (n:=ImplSize max) j = Some i -> is_set s j = mBitset s !!! i.
Proof.
  intros E. unfold is_set, Std.test. rewrite E.
  by destruct (mBitset s !!! i).
Qed.

Lemma is_set_out_of_range s (j : N) :
  (ImplSize max <= j)%N -> is_set s j = false.
Proof.
  intros E%position_None. unfold is_set, Std.test. by rewrite E.
Qed.

Lemma is_set_all s (j : N) :
  all s = true -> (j < ImplSize max)%N -> is_set s j = true.
Proof.
  intros Ha [i E]%position_lt. rewrite (is_set_lookup s j i E).
  by apply all_true.
Qed.

Lemma is_set_none s (j : N) : none s = true -> is_set s j = false.
Proof.
  intros Hn. destruct (Std.position (n:=ImplSize max) j) as [i|] eqn:E.
  - rewrite (is_set_lookup s j i E). by apply none_true.
  - apply is_set_out_of_range. by apply position_None.
Qed.

Lemma none_ctor : none (EnumClassBitset_ctor max) = true.
Proof. unfold none, Std.none. simpl. by rewrite count_zero. Qed.

Lemma all_ctor : all (EnumClassBitset_ctor max) = (ImplSize max =? 0)%N.
Proof.
  unfold all, Std.all, Std.size. simpl. rewrite count_zero. apply N.eqb_sym.
Qed.

End IsSet.

(** ** The default-constructed set *)

(** C3, on the code: the default-constructed set of an enumeration with
    a single member ([max] of ordinal 0, domain size [K = 1]) has no
    storage at all, so [all()] is true, where the claim's [K == 0] is
    false. *)
Theorem all_default_single_member :
  all (EnumClassBitset_ctor 0) = true /\
  size (EnumClassBitset_ctor 0) = 0%N /\
  all (EnumClassBitset_ctor 0) <> (Z.to_N 0 + 1 =? 0)%N.
Proof. by vm_compute. Qed.

(** X2: what holds of the default-constructed set of every enumeration:
    [none()] is true, [any()] false, [count()] zero, [all()] is
    [size() == 0], and, for a set object holding it, [begin()] returns an
    iterator equal to [end()]. *)
Theorem default_constructed (max : T) (h : gmap loc (object max)) (l : loc)
    (fuel : nat) :
  0 <= max <= int_max ->
  h !! l = Some (EnumSet (EnumClassBitset_ctor max)) ->
  (N.to_nat (size (EnumClassBitset_ctor max)) <= fuel)%nat ->
  none (EnumClassBitset_ctor max) = true /\
  any (EnumClassBitset_ctor max) = false /\
  count (EnumClassBitset_ctor max) = 0%N /\
  all (EnumClassBitset_ctor max) = (size (EnumClassBitset_ctor max) =? 0)%N /\
  exists b e, begin max fuel l h = Ok (b, h) /\ end_ max l h = Ok (e, h) /\
              iterator_eq b e = true.
Proof.
  intros Hmax Hl Hf. split_and!.
  - apply none_ctor.
  - unfold any, Std.any. simpl. by rewrite count_zero.
  - apply count_zero.
  - apply all_ctor.
  - destruct (begin_first Hmax h l _ Hl fuel Hf) as [v E].
    rewrite first_from_none in E by (intros j; apply is_set_none, none_ctor).
    eexists _, _. split_and!; [exact E|done|].
    unfold iterator_eq. simpl. rewrite bool_decide_eq_true_2 by done.
    simpl. apply N.eqb_eq. unfold ImplSize. lia.
Qed.

Lemma default_constructed_witness :
  none (EnumClassBitset_ctor TestEnum.max) = true /\
  any (EnumClassBitset_ctor TestEnum.max) = false /\
  count (EnumClassBitset_ctor TestEnum.max) = 0%N /\
  all (EnumClassBitset_ctor TestEnum.max)
    = (size (EnumClassBitset_ctor TestEnum.max) =? 0)%N /\
  exists b e,
    begin TestEnum.max 4 1 {[ 1%positive := EnumSet (EnumClassBitset_ctor TestEnum.max) ]}
      = Ok (b, {[ 1%positive := EnumSet (EnumClassBitset_ctor TestEnum.max) ]}) /\
    end_ TestEnum.max 1 {[ 1%positive := EnumSet (EnumClassBitset_ctor TestEnum.max) ]}
      = Ok (e, {[ 1%positive := EnumSet (EnumClassBitset_ctor TestEnum.max) ]}) /\
    iterator_eq b e = true.
Proof.
  apply (default_constructed TestEnum.max
           {[ 1%positive := EnumSet (EnumClassBitset_ctor TestEnum.max) ]} 1 4).
  - by vm_compute.
  - reflexivity.
  - vm_compute. lia.
Defined.

(** ** What a range-based [for] visits *)

Section Visits.
Context {max : T}.
Hypothesis Hmax : 0 <= max <= int_max.
Variable s : EnumClassBitset max.

Lemma static_cast_T_small (j : N) :
  (j < ImplSize max)%N -> static_cast_T j = Z.of_N j.
Proof.
  rewrite (ImplSize_nonneg Hmax). intros H.
  unfold static_cast_T, int_min, int_modulus, int_max in *.
  rewrite Z.mod_small by lia. lia.
Qed.

Lemma visited_values (k : nat) (i : N) :
  (N.to_nat i + k <= N.to_nat (ImplSize max))%nat ->
  static_cast_T <$> positions_from s k i = Z.of_N <$> positions_from s k i.
Proof.
  intros H. apply Forall_fmap_ext, Forall_forall.
  intros j [Hj _]%elem_of_positions_from. apply static_cast_T_small. lia.
Qed.

Lemma enumIndex_int (m : T) :
  int_min <= m <= int_max -> (enumIndex m < ImplSize max)%N ->
  0 <= m /\ enumIndex m = Z.to_N m.
Proof.
  rewrite (ImplSize_nonneg Hmax). unfold enumIndex, static_cast_size_t.
  unfold int_min, int_max, size_t_modulus in *. intros Hm H.
  destruct (decide (0 <= m)) as [Hpos|Hneg].
  - rewrite Z.mod_small by lia. done.
  - exfalso.
    assert (m mod 2 ^ 64 = m + 2 ^ 64) as E
      by (symmetry; apply (Z.mod_unique m (2 ^ 64) (-1)); lia).
    rewrite E in H. lia.
Qed.

Lemma visited_iff (m : T) :
  int_min <= m <= int_max ->
  m ∈ static_cast_T <$> positions_from s (N.to_nat (ImplSize max)) 0 <->
  test s m = Ok true.
Proof.
  intros Hm. rewrite list_elem_of_fmap. split.
  - intros (j & -> & [Hj Hs]%elem_of_positions_from).
    rewrite (test_cast Hmax s j) by lia. by rewrite Hs.
  - intros Ht.
    assert (enumIndex m < ImplSize max)%N as Hi
      by (apply (test_in_range s m); by eexists).
    destruct (enumIndex_int m Hm Hi) as [Hpos Hidx].
    exists (enumIndex m). split.
    + rewrite static_cast_T_small by done. lia.
    + apply elem_of_positions_from. split; [lia|].
      unfold is_set. by apply bool_decide_eq_true_2.
Qed.

Lemma visited_sorted :
  StronglySorted Z.lt (static_cast_T <$> positions_from s (N.to_nat (ImplSize max)) 0).
Proof.
  rewrite visited_values by lia.
  apply (StronglySorted_fmap Z.of_N N.lt Z.lt); [|apply positions_from_sorted].
  intros x y Hxy. lia.
Qed.

Lemma StronglySorted_lt_NoDup (L : list Z) : StronglySorted Z.lt L -> NoDup L.
Proof.
  induction 1 as [|x L _ IH Hx]; constructor; [|done].
  intros Hin. rewrite Forall_forall in Hx. specialize (Hx x Hin). lia.
Qed.

Lemma visited_all :
  all s = true ->
  static_cast_T <$> positions_from s (N.to_nat (ImplSize max)) 0
  = seqZ 0 (Z.of_N (size s)).
Proof.
  intros Ha. rewrite visited_values by lia.
  rewrite positions_from_all by (intros j Hj; apply is_set_all; [done|lia]).
  rewrite <- list_fmap_compose. unfold seqZ, size, Std.size.
  replace (Z.to_nat (Z.of_N (ImplSize max))) with (N.to_nat (ImplSize max)) by lia.
  apply list_fmap_ext. intros _ x _. simpl. lia.
Qed.

End Visits.

(** X3: for an enumeration whose [max] is a non-negative [int], a
    range-based [for] over a set returns, leaving the store unchanged, and
    visits exactly the members for which [test] is true, in strictly
    ascending order and once each; it visits nothing when [none()] holds,
    and the members of ordinal 0 to [size() - 1] when [all()] holds. *)
Theorem range_for_visits (max : T) (h : gmap loc (object max)) (l : loc)
    (s : EnumClassBitset max) (fuel : nat) :
  0 <= max <= int_max ->
  h !! l = Some (EnumSet s) ->
  (N.to_nat (size s) <= fuel)%nat ->
  exists L,
    range_for max fuel l h = Ok (L, h) /\
    (forall m, int_min <= m <= int_max -> m ∈ L <-> test s m = Ok true) /\
    StronglySorted Z.lt L /\
    NoDup L /\
    (none s = true -> L = []) /\
    (all s = true -> L = seqZ 0 (Z.of_N (size s))).
Proof.
  intros Hmax Hl Hf.
  exists (static_cast_T <$> positions_from s (N.to_nat (ImplSize max)) 0).
  split_and!.
  - by apply range_for_positions.
  - intros m Hm. by apply visited_iff.
  - by apply visited_sorted.
  - by apply StronglySorted_lt_NoDup, visited_sorted.
  - intros Hn. rewrite positions_from_none; [done|].
    intros j. by apply is_set_none.
  - by apply visited_all.
Qed.

Lemma range_for_visits_witness :
  exists L,
    range_for TestEnum.max 4 2 TestEnum.two_sets = Ok (L, TestEnum.two_sets) /\
    (forall m, int_min <= m <= int_max ->
               m ∈ L <-> test TestEnum.A_and_B m = Ok true) /\
    StronglySorted Z.lt L /\
    NoDup L /\
    (none TestEnum.A_and_B = true -> L = []) /\
    (all TestEnum.A_and_B = true -> L = seqZ 0 (Z.of_N (size TestEnum.A_and_B))).
Proof.
  apply (range_for_visits TestEnum.max TestEnum.two_sets 2 TestEnum.A_and_B 4).
  - by vm_compute.
  - reflexivity.
  - vm_compute. lia.
Defined.

(** C7, on the code: for the five-member enumeration of the test suite,
    the set with every bit set ([all()] is true) is visited as the four
    members [A], [B], [C], [D]; the last member [E] is never visited
    ([test(E)] throws), where the claim and the test suite expect [K = 5]
    members, the whole domain. *)
Theorem range_for_full_TestEnum :
  all TestEnum.full = true /\
  range_for TestEnum.max 5 1 TestEnum.one_full
    = Ok ([TestEnum.A; TestEnum.B; TestEnum.C; TestEnum.D], TestEnum.one_full) /\
  length [TestEnum.A; TestEnum.B; TestEnum.C; TestEnum.D] = 4%nat /\
  test TestEnum.full TestEnum.E = Throw out_of_range /\
  set TestEnum.full TestEnum.E true = Throw out_of_range.
Proof. split_and!; reflexivity. Qed.

(** ** Capacity and equality, as the code has them *)

(** [size()] is [static_cast<std::size_t>(EnumTraits<T>::max)] for
    every instance, hence the same for all instances of one enumeration
    type. *)
Lemma size_fixed (max : T) (s1 s2 : EnumClassBitset max) :
  size s1 = static_cast_size_t max /\
  size s1 = size s2 /\
  size (flip s1) = size s1 /\
  size (op_and s1 s2) = size s1.
Proof. by split_and!. Qed.

Section Equality.
Context {max : T}.
Implicit Types (a b : EnumClassBitset max).

Lemma test_of_position a (i : fin (N.to_nat (ImplSize max))) :
  test a (Z.of_nat (fin_to_nat i)) = Ok (mBitset a !!! i).
Proof.
  pose proof (fin_to_nat_lt i) as Hi.
  assert (ImplSize max < 2 ^ 64)%N as Hn.
  { unfold ImplSize, static_cast_size_t, size_t_modulus.
    pose proof (Z.mod_pos_bound max (2 ^ 64)). lia. }
  assert (enumIndex (Z.of_nat (fin_to_nat i)) = N.of_nat (fin_to_nat i)) as E.
  { unfold enumIndex, static_cast_size_t, size_t_modulus.
    rewrite Z.mod_small by lia. lia. }
  unfold test, Std.test. rewrite E.
  rewrite (proj2 (position_Some (N.of_nat (fin_to_nat i)) i)) by lia. done.
Qed.

Lemma op_eq_true a b : op_eq a b = true <-> a = b.
Proof.
  unfold op_eq, Std.eq. rewrite bool_decide_eq_true.
  destruct a as [x], b as [y]. simpl. split; congruence.
Qed.

End Equality.

(** X5: [a == b] holds exactly when [test] agrees on every member, that
    is when the two sets are the same value; [!=] is its negation, and
    [==] is reflexive, symmetric and transitive. *)
Theorem op_eq_iff (max : T) (a b c : EnumClassBitset max) :
  (op_eq a b = true <-> forall m, test a m = test b m) /\
  (op_eq a b = true <-> a = b) /\
  op_ne a b = negb (op_eq a b) /\
  op_eq a a = true /\
  op_eq a b = op_eq b a /\
  (op_eq a b = true -> op_eq b c = true -> op_eq a c = true).
Proof.
  split_and!.
  - rewrite op_eq_true. split; [by intros ->|].
    intros H. destruct a as [x], b as [y]. f_equal. apply vec_eq. intros i.
    specialize (H (Z.of_nat (fin_to_nat i))).
    rewrite !test_of_position in H. simpl in H. congruence.
  - apply op_eq_true.
  - reflexivity.
  - by apply op_eq_true.
  - destruct (op_eq b a) eqn:E.
    + apply op_eq_true in E. by apply op_eq_true.
    + destruct (op_eq a b) eqn:E'; [|done].
      apply op_eq_true in E'. subst. rewrite (proj2 (op_eq_true b b) eq_refl) in E. done.
  - rewrite !op_eq_true. congruence.
Qed.

(** ** The example program

    [states.set(NEW); states.set(ESTABLISHED);] then [states.test(NEW)]
    is true and the range-based [for] visits [NEW] and [ESTABLISHED]. *)
Example conntrack_example :
  exists s1 s2,
    set (EnumClassBitset_ctor ConntrackState.max) ConntrackState.NEW true = Ok s1 /\
    set s1 ConntrackState.ESTABLISHED true = Ok s2 /\
    test s2 ConntrackState.NEW = Ok true /\
    range_for ConntrackState.max 2 1 {[ 1%positive := EnumSet s2 ]}
      = Ok ([ConntrackState.NEW; ConntrackState.ESTABLISHED],
            {[ 1%positive := EnumSet s2 ]}).
Proof. eexists _, _. split_and!; reflexivity. Qed.

(** * Further properties of the code *)

(** ** Single-member updates: what they change and how they compose *)

Section UpdateLaws.
Context {max : T}.
Implicit Types (s : EnumClassBitset max) (m : T).

Lemma set_Ok s m v s' :
  set s m v = Ok s' <->
  exists i, Std.position (n:=ImplSize max) (enumIndex m) = Some i /\
            s' = Build_EnumClassBitset max (vinsert i v (mBitset s)).
Proof.
  unfold set, Std.set. destruct (Std.position _) as [i|]; simpl.
  - split; [intros [= <-]; by exists i|]. by intros (j & [= <-] & ->).
  - split; [done|]. by intros (j & ? & _).
Qed.

Lemma flip_member_Ok s m s' :
  flip_member s m = Ok s' <->
  exists i, Std.position (n:=ImplSize max) (enumIndex m) = Some i /\
            s' = Build_EnumClassBitset max
                   (vinsert i (negb (mBitset s !!! i)) (mBitset s)).
Proof.
  unfold flip_member, Std.flip_at. destruct (Std.position _) as [i|]; simpl.
  - split; [intros [= <-]; by exists i|]. by intros (j & [= <-] & ->).
  - split; [done|]. by intros (j & ? & _).
Qed.

Lemma reset_is_set s m : reset s m = set s m false.
Proof. reflexivity. Qed.

Lemma position_inj (p q : N) (i : fin (N.to_nat (ImplSize max))) :
  Std.position (n:=ImplSize max) p = Some i ->
  Std.position (n:=ImplSize max) q = Some i -> p = q.
Proof. intros Hp%position_Some Hq%position_Some. lia. Qed.

Lemma test_vinsert_other s m' (i : fin (N.to_nat (ImplSize max))) (p : N) v :
  Std.position (n:=ImplSize max) p = Some i -> enumIndex m' <> p ->
  test (Build_EnumClassBitset max (vinsert i v (mBitset s))) m' = test s m'.
Proof.
  intros Hp Hne. unfold test, Std.test. simpl.
  destruct (Std.position (enumIndex m')) as [j|] eqn:Hj; [|done].
  rewrite vlookup_insert_ne; [done|].
  intros ->. apply Hne. by apply (position_inj _ _ j).
Qed.

End UpdateLaws.

(** X6: [set(m, v)], [reset(m)] and [flip(m)] change the membership of
    [m] only: every member [m'] at another position keeps the outcome of
    [test(m')], whether a bit or [std::out_of_range]. *)
Theorem update_frame (max : T) (s s' : EnumClassBitset max) (m m' : T) (v : bool) :
  enumIndex m' <> enumIndex m ->
  set s m v = Ok s' \/ reset s m = Ok s' \/ flip_member s m = Ok s' ->
  test s' m' = test s m'.
Proof.
  intros Hne [H|[H|H]].
  - apply set_Ok in H as (i & Hi & ->). by apply (test_vinsert_other s m' i (enumIndex m)).
  - rewrite reset_is_set in H.
    apply set_Ok in H as (i & Hi & ->). by apply (test_vinsert_other s m' i (enumIndex m)).
  - apply flip_member_Ok in H as (i & Hi & ->).
    by apply (test_vinsert_other s m' i (enumIndex m)).
Qed.

Lemma update_frame_witness :
  test TestEnum.A_and_B TestEnum.C = test TestEnum.only_A TestEnum.C.
Proof.
  apply (update_frame TestEnum.max TestEnum.only_A TestEnum.A_and_B
           TestEnum.B TestEnum.C true).
  - by vm_compute.
  - left. reflexivity.
Defined.

Section UpdateCompose.
Context {max : T}.
Implicit Types (s : EnumClassBitset max) (m : T).

Lemma vinsert_vinsert {A n} (i : fin n) (x y : A) (v : vec A n) :
  vinsert i y (vinsert i x v) = vinsert i y v.
Proof.
  apply vec_eq. intros j. destruct (decide (i = j)) as [->|Hne].
  - by rewrite !vlookup_insert.
  - by rewrite !vlookup_insert_ne.
Qed.

Lemma vinsert_commute {A n} (i j : fin n) (x y : A) (v : vec A n) :
  i <> j -> vinsert i x (vinsert j y v) = vinsert j y (vinsert i x v).
Proof.
  intros Hne. apply vec_eq. intros k.
  destruct (decide (i = k)) as [->|Hik], (decide (j = k)) as [->|Hjk]; try done.
  - by rewrite vlookup_insert, vlookup_insert_ne, vlookup_insert.
  - by rewrite vlookup_insert_ne, !vlookup_insert.
  - by rewrite !vlookup_insert_ne.
Qed.

Lemma set_set s m v v' :
  result_bind (set s m v) (fun s1 => set s1 m v') = set s m v'.
Proof.
  unfold set, Std.set. destruct (Std.position _) as [i|]; simpl; [|done].
  by rewrite vinsert_vinsert.
Qed.

Lemma set_commute s m m' v v' :
  enumIndex m <> enumIndex m' ->
  result_bind (set s m v) (fun s1 => set s1 m' v')
  = result_bind (set s m' v') (fun s1 => set s1 m v).
Proof.
  intros Hne. unfold set, Std.set.
  destruct (Std.position (enumIndex m)) as [i|] eqn:E;
    destruct (Std.position (enumIndex m')) as [j|] eqn:E'; simpl; try done.
  rewrite vinsert_commute; [done|].
  intros ->. apply Hne. by apply (position_inj _ _ i).
Qed.

Lemma set_same s m v : test s m = Ok v -> set s m v = Ok s.
Proof.
  unfold test, set, Std.test, Std.set.
  destruct (Std.position _) as [i|]; simpl; [|done].
  intros [= <-]. rewrite vlookup_insert_self. by destruct s.
Qed.

Lemma flip_member_is_set s m :
  flip_member s m = result_bind (test s m) (fun x => set s m (negb x)).
Proof.
  unfold flip_member, test, set, Std.flip_at, Std.test, Std.set.
  by destruct (Std.position _) as [i|].
Qed.

Lemma flip_member_twice s m :
  result_bind (flip_member s m) (fun s1 => flip_member s1 m)
  = result_map (fun _ => s) (test s m).
Proof.
  unfold flip_member, test, Std.flip_at, Std.test.
  destruct (Std.position _) as [i|]; simpl; [|done].
  rewrite vlookup_insert, negb_involutive, vinsert_vinsert.
  rewrite vlookup_insert_self. by destruct s.
Qed.

End UpdateCompose.

(** X7: updates of one set compose as writes to separate cells: a second
    [set] of the same member overrides the first, [set]s of members at
    different positions commute, [set(m, v)] with the value [test(m)]
    already has changes nothing, [reset(m)] is [set(m, false)], [flip(m)]
    is [set(m, !test(m))], and two [flip(m)] restore the set; whenever the
    member is outside the storage both sides throw. *)
Theorem update_compose (max : T) (s : EnumClassBitset max) (m m' : T) (v v' : bool) :
  (result_bind (set s m v) (fun s1 => set s1 m v') = set s m v') /\
  (enumIndex m <> enumIndex m' ->
   result_bind (set s m v) (fun s1 => set s1 m' v')
   = result_bind (set s m' v') (fun s1 => set s1 m v)) /\
  (test s m = Ok v -> set s m v = Ok s) /\
  (reset s m = set s m false) /\
  (flip_member s m = result_bind (test s m) (fun x => set s m (negb x))) /\
  (result_bind (flip_member s m) (fun s1 => flip_member s1 m)
   = result_map (fun _ => s) (test s m)).
Proof.
  split_and!.
  - apply set_set.
  - apply set_commute.
  - apply set_same.
  - apply reset_is_set.
  - apply flip_member_is_set.
  - apply flip_member_twice.
Qed.

(** ** Unchecked access and the reference it returns *)

(** X8: for a member whose ordinal is below [size()], the read
    [operator[]] returns what [test] returns, and the reference returned
    by the writing [operator[]] is a handle on that member's bit: assigning
    [x] through it gives the set that [set(m, x)] gives, so [test(m)] is
    then [x] and every other member is unchanged. *)
Theorem op_index_in_range (max : T) (s : EnumClassBitset max) (m : T) :
  (enumIndex m < size s)%N ->
  op_index s m = test s m /\
  exists r,
    op_index_ref s m = Ok r /\
    forall x,
      set s m x = Ok (reference_assign r x s) /\
      test (reference_assign r x s) m = Ok x /\
      (forall m', enumIndex m' <> enumIndex m ->
                  test (reference_assign r x s) m' = test s m').
Proof.
  intros H. split; [by apply index_test|].
  destruct (position_in_range s m H) as [i E].
  exists (Std.Reference i). split.
  - unfold op_index_ref, Std.index_ref. by rewrite E.
  - intros x.
    assert (set s m x = Ok (reference_assign (Std.Reference i) x s)) as Hset
      by (unfold set, Std.set; by rewrite E).
    split_and!; [done| |].
    + destruct (set_in_range s m x H) as (s' & Hs' & Ht). congruence.
    + intros m' Hne. by apply (test_vinsert_other s m' i (enumIndex m)).
Qed.

Lemma op_index_in_range_witness :
  op_index TestEnum.only_A TestEnum.B = test TestEnum.only_A TestEnum.B /\
  exists r,
    op_index_ref TestEnum.only_A TestEnum.B = Ok r /\
    forall x,
      set TestEnum.only_A TestEnum.B x = Ok (reference_assign r x TestEnum.only_A) /\
      test (reference_assign r x TestEnum.only_A) TestEnum.B = Ok x /\
      (forall m', enumIndex m' <> enumIndex TestEnum.B ->
                  test (reference_assign r x TestEnum.only_A) m'
                  = test TestEnum.only_A m').
Proof.
  apply (op_index_in_range TestEnum.max TestEnum.only_A TestEnum.B).
  by vm_compute.
Defined.

(** ** The members a set can hold *)

(** X9: when [max] is a non-negative [int], the members that the checked
    operations accept are exactly the enumerators of value 0 to
    [max - 1]: for every [int] value [m], [test(m)] returns a bit if
    [0 <= m < max], and throws [std::out_of_range] otherwise, for a
    negative value as for [max] and every larger one; [set(m)] throws on
    the same values. *)
Theorem accepted_members (max : T) (s : EnumClassBitset max) (m : T) :
  0 <= max <= int_max ->
  int_min <= m <= int_max ->
  ((exists x, test s m = Ok x) <-> 0 <= m < max) /\
  (test s m = Throw out_of_range <-> m < 0 \/ max <= m) /\
  (forall v, set s m v = Throw out_of_range <-> m < 0 \/ max <= m).
Proof.
  intros Hmax Hm.
  assert ((enumIndex m < size s)%N <-> 0 <= m < max) as Hin.
  { split.
    - intros Hi. destruct (enumIndex_int Hmax m Hm Hi) as [Hpos E].
      change (size s) with (ImplSize max) in Hi.
      rewrite E, (ImplSize_nonneg Hmax) in Hi. lia.
    - intros Hr. rewrite size_eq_max.
      unfold enumIndex, static_cast_size_t, size_t_modulus, int_max in *.
      rewrite !Z.mod_small by lia. lia. }
  split_and!.
  - by rewrite <- test_in_range.
  - rewrite test_Throw. lia.
  - intros v. rewrite set_Throw. lia.
Qed.

Lemma accepted_members_witness :
  ((exists x, test TestEnum.only_A (-1) = Ok x) <-> 0 <= -1 < TestEnum.max) /\
  (test TestEnum.only_A (-1) = Throw out_of_range <-> -1 < 0 \/ TestEnum.max <= -1) /\
  (forall v, set TestEnum.only_A (-1) v = Throw out_of_range
             <-> -1 < 0 \/ TestEnum.max <= -1).
Proof.
  apply (accepted_members TestEnum.max TestEnum.only_A (-1)); by vm_compute.
Defined.

(** ** Counting the members of a set *)

Section CountLists.
Implicit Types (l : list bool).

Lemma cnt_cons (x : bool) l :
  length (filter (fun y => y = true) (x :: l))
  = (Nat.b2n x + length (filter (fun y => y = true) l))%nat.
Proof.
  rewrite filter_cons. by destruct x; [rewrite decide_True|rewrite decide_False].
Qed.

Lemma cnt_negb l :
  (length (filter (fun y => y = true) (negb <$> l))
   + length (filter (fun y => y = true) l) = length l)%nat.
Proof.
  induction l as [|x l IH]; [done|].
  rewrite fmap_cons, !cnt_cons. destruct x; simpl; lia.
Qed.

Lemma cnt_insert l (k : nat) (x v : bool) :
  l !! k = Some x ->
  (length (filter (fun y => y = true) (<[k:=v]> l)) + Nat.b2n x
   = length (filter (fun y => y = true) l) + Nat.b2n v)%nat.
Proof.
  revert k. induction l as [|y l IH]; intros k; [done|].
  destruct k as [|k]; simpl.
  - intros [= ->]. rewrite !cnt_cons. lia.
  - intros H. rewrite !cnt_cons. specialize (IH k H). lia.
Qed.

Lemma cnt_zip_with l1 l2 :
  length l1 = length l2 ->
  (length (filter (fun y => y = true) (zip_with orb l1 l2))
   + length (filter (fun y => y = true) (zip_with andb l1 l2))
   = length (filter (fun y => y = true) l1)
     + length (filter (fun y => y = true) l2))%nat /\
  (length (filter (fun y => y = true) (zip_with xorb l1 l2))
   + 2 * length (filter (fun y => y = true) (zip_with andb l1 l2))
   = length (filter (fun y => y = true) l1)
     + length (filter (fun y => y = true) l2))%nat.
Proof.
  revert l2. induction l1 as [|x l1 IH]; intros [|y l2] Hlen; try done.
  simpl zip_with. rewrite !cnt_cons.
  destruct (IH l2) as [IH1 IH2]; [simpl in Hlen; lia|].
  destruct x, y; simpl; lia.
Qed.

Lemma cnt_Forall l :
  Forall (fun y => y = true) l ->
  length (filter (fun y => y = true) l) = length l.
Proof.
  induction 1 as [|x l -> _ IH]; [done|]. rewrite cnt_cons. simpl. lia.
Qed.

Lemma cnt_Forall_not l :
  Forall (fun y => y = false) l ->
  length (filter (fun y => y = true) l) = 0%nat.
Proof.
  induction 1 as [|x l -> _ IH]; [done|]. rewrite cnt_cons. simpl. lia.
Qed.

End CountLists.

Section CountFacts.
Context {n : N}.
Implicit Types (b : Std.bitset n).

Lemma count_le_size b : (Std.count b <= Std.size b)%N.
Proof.
  unfold Std.count, Std.size.
  pose proof (length_filter (fun y => y = true) (vec_to_list b)) as H.
  rewrite length_vec_to_list in H. lia.
Qed.

Lemma all_iff b : Std.all b = true <-> forall i, b !!! i = true.
Proof.
  split; [apply all_true|]. intros H.
  unfold Std.all, Std.count, Std.size. apply N.eqb_eq.
  rewrite cnt_Forall, length_vec_to_list; [lia|].
  by apply Forall_vlookup.
Qed.

Lemma none_iff b : Std.none b = true <-> forall i, b !!! i = false.
Proof.
  split; [apply none_true|]. intros H.
  unfold Std.none, Std.count. apply N.eqb_eq.
  rewrite cnt_Forall_not; [done|]. by apply Forall_vlookup.
Qed.

Lemma any_iff b : Std.any b = true <-> exists i, b !!! i = true.
Proof.
  unfold Std.any. rewrite negb_true_iff. split.
  - intros H. unfold Std.count in H. apply N.eqb_neq in H.
    destruct (filter (fun y => y = true) (vec_to_list b)) as [|x l] eqn:E; [done|].
    assert (x ∈ filter (fun y => y = true) (vec_to_list b)) as Hx
      by (rewrite E; left).
    apply list_elem_of_filter in Hx as [-> Hx].
    by apply elem_of_vlookup in Hx.
  - intros [i Hi]. destruct (Std.count b =? 0)%N eqn:E; [|done].
    assert (Std.none b = true) as Hn by done.
    rewrite (none_true b Hn i) in Hi. done.
Qed.

Lemma count_flip b : (Std.count (Std.flip b) + Std.count b = Std.size b)%N.
Proof.
  unfold Std.count, Std.flip, Std.size. rewrite vec_to_list_map.
  pose proof (cnt_negb (vec_to_list b)) as H.
  rewrite length_vec_to_list in H. lia.
Qed.

Lemma flip_flip b : Std.flip (Std.flip b) = b.
Proof.
  apply vec_eq. intros i. unfold Std.flip.
  by rewrite !vlookup_map, negb_involutive.
Qed.

Lemma count_vinsert b (i : fin (N.to_nat n)) (v : bool) :
  (Std.count (vinsert i v b) + N.b2n (b !!! i) = Std.count b + N.b2n v)%N.
Proof.
  unfold Std.count. rewrite vec_to_list_insert.
  pose proof (cnt_insert (vec_to_list b) i (b !!! i) v) as H.
  rewrite <- vlookup_lookup in H. specialize (H eq_refl).
  destruct (b !!! i), v; simpl in *; lia.
Qed.

Lemma count_zip_with (a b : Std.bitset n) :
  (Std.count (vzip_with orb a b) + Std.count (vzip_with andb a b)
   = Std.count a + Std.count b)%N /\
  (Std.count (vzip_with xorb a b) + 2 * Std.count (vzip_with andb a b)
   = Std.count a + Std.count b)%N.
Proof.
  unfold Std.count. rewrite !vec_to_list_zip_with.
  destruct (cnt_zip_with (vec_to_list a) (vec_to_list b)) as [H1 H2];
    [by rewrite !length_vec_to_list|].
  split; lia.
Qed.

End CountFacts.

(** X10: [flip()] is the complement: applying it twice gives the set
    back, the members it holds and the members of the original add up to
    [size()], and it exchanges [all()] and [none()]. *)
Theorem flip_complement (max : T) (s : EnumClassBitset max) :
  flip (flip s) = s /\
  (count (flip s) + count s = size s)%N /\
  all (flip s) = none s /\
  none (flip s) = all s /\
  any (flip s) = negb (all s).
Proof.
  pose proof (count_flip (mBitset s)) as Hc.
  pose proof (count_le_size (mBitset s)) as Hle.
  unfold any, all, none, count, size, Std.any, Std.all, Std.none in *.
  change (mBitset (flip s)) with (Std.flip (mBitset s)).
  unfold Std.size in *.
  split_and!.
  - destruct s as [b]. unfold flip. simpl. by rewrite flip_flip.
  - done.
  - apply eq_iff_eq_true. rewrite !N.eqb_eq. lia.
  - apply eq_iff_eq_true. rewrite !N.eqb_eq. lia.
  - f_equal. apply eq_iff_eq_true. rewrite !N.eqb_eq. lia.
Qed.

Section CountViaTest.
Context {max : T}.
Implicit Types (s : EnumClassBitset max).

Lemma test_Ok_lookup s m x :
  test s m = Ok x <->
  exists i, Std.position (n:=ImplSize max) (enumIndex m) = Some i /\ mBitset s !!! i = x.
Proof.
  unfold test, Std.test. destruct (Std.position _) as [i|].
  - split; [intros [= <-]; by exists i|]. by intros (j & [= <-] & ->).
  - split; [done|]. by intros (j & ? & _).
Qed.

Lemma all_test s :
  all s = true <-> forall m, (enumIndex m < size s)%N -> test s m = Ok true.
Proof.
  unfold all. rewrite all_iff. split.
  - intros H m [i E]%position_in_range. apply test_Ok_lookup. by exists i.
  - intros H i. specialize (H (Z.of_nat (fin_to_nat i))).
    rewrite test_of_position in H.
    assert (Ok (mBitset s !!! i) = Ok true) as [= ->]; [|done].
    apply H. apply test_in_range. rewrite test_of_position. by eexists.
Qed.

Lemma none_test s : none s = true <-> forall m, test s m <> Ok true.
Proof.
  unfold none. rewrite none_iff. split.
  - intros H m (i & _ & Hi)%test_Ok_lookup. rewrite H in Hi. done.
  - intros H i. specialize (H (Z.of_nat (fin_to_nat i))).
    rewrite test_of_position in H. destruct (mBitset s !!! i); done.
Qed.

Lemma any_test s : any s = true <-> exists m, test s m = Ok true.
Proof.
  unfold any. rewrite any_iff. split.
  - intros [i Hi]. exists (Z.of_nat (fin_to_nat i)).
    by rewrite test_of_position, Hi.
  - intros [m (i & _ & Hi)%test_Ok_lookup]. by exists i.
Qed.

End CountViaTest.

(** X11: [all()], [none()] and [any()] say what [test] says member by
    member: [all()] holds exactly when [test] is true for every member
    whose ordinal is below [size()], [none()] exactly when [test] is true
    for no member, [any()] exactly when it is true for some member;
    [any()] is the negation of [none()] and [count()] never exceeds
    [size()]. *)
Theorem all_any_none_test (max : T) (s : EnumClassBitset max) :
  (all s = true <-> forall m, (enumIndex m < size s)%N -> test s m = Ok true) /\
  (none s = true <-> forall m, test s m <> Ok true) /\
  (any s = true <-> exists m, test s m = Ok true) /\
  any s = negb (none s) /\
  (count s <= size s)%N /\
  (all s = true <-> count s = size s) /\
  (none s = true <-> count s = 0%N).
Proof.
  split_and!.
  - apply all_test.
  - apply none_test.
  - apply any_test.
  - reflexivity.
  - apply count_le_size.
  - apply N.eqb_eq.
  - apply N.eqb_eq.
Qed.

(** X12: [set(m, v)] changes [count()] by the change of that member
    alone: with [x] the value [test(m)] had, the new count plus [x] is the
    old count plus [v], so adding an absent member adds one, removing a
    present member takes one away, and anything else keeps the count. *)
Theorem count_after_set (max : T) (s s' : EnumClassBitset max) (m : T) (v : bool) :
  set s m v = Ok s' ->
  exists x, test s m = Ok x /\
            (count s' + N.b2n x = count s + N.b2n v)%N.
Proof.
  intros (i & Hi & ->)%set_Ok. exists (mBitset s !!! i). split.
  - apply test_Ok_lookup. by exists i.
  - apply count_vinsert.
Qed.

Lemma count_after_set_witness :
  exists x, test TestEnum.only_A TestEnum.B = Ok x /\
            (count TestEnum.A_and_B + N.b2n x = count TestEnum.only_A + N.b2n true)%N.
Proof.
  apply (count_after_set TestEnum.max TestEnum.only_A TestEnum.A_and_B TestEnum.B true).
  reflexivity.
Defined.

(** ** The algebra of sets *)

Ltac bitwise :=
  repeat match goal with s : EnumClassBitset _ |- _ => destruct s end;
  unfold op_and, op_or, op_xor, op_not, flip, EnumClassBitset_ctor,
    op_and_assign, op_or_assign, op_xor_assign,
    Std.and_assign, Std.or_assign, Std.xor_assign, Std.flip, Std.zero;
  simpl; f_equal; apply vec_eq; intros ?i;
  rewrite ?vlookup_zip_with, ?vlookup_map, ?vlookup_zip_with, ?vlookup_map,
    ?vlookup_replicate;
  repeat match goal with |- context [ ?v !!! ?i ] => destruct (v !!! i) end;
  reflexivity.

(** X13: [&], [|] and [~] make the sets of one enumeration type a Boolean
    algebra whose least element is the default-constructed set and whose
    greatest is its complement, and [^] is the symmetric difference: the
    operators are commutative, associative and idempotent, absorb and
    distribute over each other, and obey De Morgan's laws. *)
Theorem set_algebra_laws (max : T) (a b c : EnumClassBitset max) :
  (op_and a b = op_and b a /\ op_or a b = op_or b a /\ op_xor a b = op_xor b a) /\
  (op_and a (op_and b c) = op_and (op_and a b) c /\
   op_or a (op_or b c) = op_or (op_or a b) c /\
   op_xor a (op_xor b c) = op_xor (op_xor a b) c) /\
  (op_and a a = a /\ op_or a a = a /\ op_xor a a = EnumClassBitset_ctor max) /\
  (op_and a (op_or a b) = a /\ op_or a (op_and a b) = a) /\
  (op_and a (op_or b c) = op_or (op_and a b) (op_and a c) /\
   op_or a (op_and b c) = op_and (op_or a b) (op_or a c)) /\
  (op_not (op_and a b) = op_or (op_not a) (op_not b) /\
   op_not (op_or a b) = op_and (op_not a) (op_not b) /\
   op_not (op_not a) = a) /\
  (op_and a (op_not a) = EnumClassBitset_ctor max /\
   op_or a (op_not a) = op_not (EnumClassBitset_ctor max)) /\
  (op_and a (EnumClassBitset_ctor max) = EnumClassBitset_ctor max /\
   op_or a (EnumClassBitset_ctor max) = a /\
   op_xor a (EnumClassBitset_ctor max) = a) /\
  (op_xor a b = op_and (op_or a b) (op_not (op_and a b))).
Proof. split_and!; bitwise. Qed.

(** X14: the counts of a union and an intersection add up to the counts
    of the two sets, and a symmetric difference holds the members of the
    two sets that are not in both; an intersection is never larger, and a
    union never smaller, than either set. *)
Theorem count_set_algebra (max : T) (a b : EnumClassBitset max) :
  (count (op_or a b) + count (op_and a b) = count a + count b)%N /\
  (count (op_xor a b) + 2 * count (op_and a b) = count a + count b)%N /\
  (count (op_and a b) <= count a)%N /\
  (count (op_and a b) <= count b)%N /\
  (count a <= count (op_or a b))%N /\
  (count b <= count (op_or a b))%N.
Proof.
  destruct (count_zip_with (mBitset a) (mBitset b)) as [H1 H2].
  assert (op_and b a = op_and a b) as Ha by bitwise.
  destruct (count_zip_with (mBitset (op_and a b)) (mBitset (op_and a (op_not b))))
    as [H4 _].
  assert (op_or (op_and a b) (op_and a (op_not b)) = a) as Ho' by bitwise.
  assert (op_and (op_and a b) (op_and a (op_not b)) = EnumClassBitset_ctor max)
    as Hz' by bitwise.
  destruct (count_zip_with (mBitset (op_and b a)) (mBitset (op_and b (op_not a))))
    as [H5 _].
  assert (op_or (op_and b a) (op_and b (op_not a)) = b) as Ho'' by bitwise.
  assert (op_and (op_and b a) (op_and b (op_not a)) = EnumClassBitset_ctor max)
    as Hz'' by bitwise.
  unfold count in *.
  change (vzip_with orb (mBitset a) (mBitset b)) with (mBitset (op_or a b)) in *.
  change (vzip_with andb (mBitset a) (mBitset b)) with (mBitset (op_and a b)) in *.
  change (vzip_with xorb (mBitset a) (mBitset b)) with (mBitset (op_xor a b)) in *.
  change (vzip_with orb (mBitset (op_and a b)) (mBitset (op_and a (op_not b))))
    with (mBitset (op_or (op_and a b) (op_and a (op_not b)))) in *.
  change (vzip_with andb (mBitset (op_and a b)) (mBitset (op_and a (op_not b))))
    with (mBitset (op_and (op_and a b) (op_and a (op_not b)))) in *.
  change (vzip_with orb (mBitset (op_and b a)) (mBitset (op_and b (op_not a))))
    with (mBitset (op_or (op_and b a) (op_and b (op_not a)))) in *.
  change (vzip_with andb (mBitset (op_and b a)) (mBitset (op_and b (op_not a))))
    with (mBitset (op_and (op_and b a) (op_and b (op_not a)))) in *.
  rewrite Ho', Hz' in H4. rewrite Ho'', Hz'' in H5. rewrite Ha in H5.
  assert (Std.count (mBitset (EnumClassBitset_ctor max)) = 0%N) as H0
    by apply count_zero.
  rewrite H0 in *.
  split_and!; lia.
Qed.

(** ** Iterators: where they stop *)

Section Positions.
Context {max : T}.
Implicit Types (s : EnumClassBitset max).

Lemma is_set_test s m : test s m = Ok true -> is_set s (enumIndex m) = true.
Proof. intros H. unfold is_set. by apply bool_decide_eq_true_2. Qed.

Lemma is_set_in_range s (j : N) : is_set s j = true -> (j < ImplSize max)%N.
Proof.
  intros H. destruct (decide (j < ImplSize max)%N) as [|Hge]; [done|].
  rewrite is_set_out_of_range in H by lia. done.
Qed.

Lemma first_from_spec s (k : nat) (i : N) :
  (i <= first_from s k i <= i + N.of_nat k)%N /\
  ((first_from s k i < i + N.of_nat k)%N -> is_set s (first_from s k i) = true) /\
  (forall j, (i <= j < first_from s k i)%N -> is_set s j = false).
Proof.
  revert i. induction k as [|k IH]; intros i; simpl.
  - split_and!; [lia..|]. intros j Hj. lia.
  - destruct (is_set s i) eqn:E.
    + split_and!; [lia..|done|]. intros j Hj. lia.
    + destruct (IH (i + 1)%N) as (Hb & Hs & Hn). split_and!; [lia..| |].
      * intros H. apply Hs. lia.
      * intros j Hj. destruct (decide (j = i)) as [->|]; [done|]. apply Hn. lia.
Qed.

Lemma positions_from_length s (k : nat) (i : N) :
  length (positions_from s k i)
  = length (filter (fun y => y = true)
              (take k (drop (N.to_nat i) (vec_to_list (mBitset s))))).
Proof.
  revert i. induction k as [|k IH]; intros i; [done|]. simpl positions_from.
  assert (N.to_nat (i + 1) = S (N.to_nat i)) as Hi by lia.
  destruct (vec_to_list (mBitset s) !! N.to_nat i) as [x|] eqn:E.
  - rewrite (drop_S _ _ _ E). simpl take. rewrite cnt_cons.
    assert (is_set s i = x) as ->.
    { unfold is_set. apply test_lookup in E.
      rewrite E. by destruct x. }
    specialize (IH (i + 1)%N). rewrite Hi in IH.
    destruct x; simpl; rewrite IH; done.
  - assert (is_set s i = false) as ->.
    { unfold is_set. apply bool_decide_eq_false_2. intros Ht.
      apply test_lookup in Ht. congruence. }
    rewrite IH, Hi. apply lookup_ge_None in E.
    rewrite !drop_ge by lia. by rewrite !take_nil.
Qed.

End Positions.

Section Stops.
Context {max : T}.
Hypothesis Hmax : 0 <= max <= int_max.
Variable h : gmap loc (object max).
Variable l : loc.
Variable s : EnumClassBitset max.
Hypothesis Hl : h !! l = Some (EnumSet s).

(** [findNext] stops at the lowest present member at or after the index,
    or at [size()]. *)
Lemma findNext_lowest (fuel : nat) (it : iterator) :
  bitset it = l -> (index it <= ImplSize max)%N ->
  (N.to_nat (ImplSize max) - N.to_nat (index it) <= fuel)%nat ->
  exists it',
    findNext max fuel it h = Ok (it', h) /\
    bitset it' = l /\
    (index it <= index it' <= ImplSize max)%N /\
    ((index it' < ImplSize max)%N ->
     value it' = static_cast_T (index it') /\
     test s (value it') = Ok true /\
     enumIndex (value it') = index it') /\
    (forall m, test s m = Ok true -> (index it <= enumIndex m)%N ->
               (index it' <= enumIndex m)%N).
Proof.
  intros Hb Hi Hf.
  set (k := (N.to_nat (ImplSize max) - N.to_nat (index it))%nat).
  destruct (findNext_first Hmax h l s Hl k fuel it Hb) as (v & E & Hv); [lia|done|].
  destruct (first_from_spec s k (index it)) as (Hbound & Hset & Hnone).
  eexists. split; [exact E|]. simpl.
  split_and!; [done|lia|lia| |].
  - intros Hlt. rewrite (Hv Hlt).
    rewrite (test_cast Hmax s _ Hlt), (cast_roundtrip Hmax _ Hlt).
    rewrite Hset by lia. done.
  - intros m Hm Hge.
    destruct (decide (first_from s k (index it) <= enumIndex m)%N) as [|Hlt]; [done|].
    pose proof (is_set_test s m Hm) as Hs.
    rewrite (Hnone (enumIndex m)) in Hs; [done|lia].
Qed.

Lemma none_first_from :
  none s = true <-> first_from s (N.to_nat (ImplSize max)) 0 = ImplSize max.
Proof.
  destruct (first_from_spec s (N.to_nat (ImplSize max)) 0) as (Hbound & Hset & Hnone).
  split.
  - intros Hn. rewrite first_from_none by (intros j; by apply is_set_none). lia.
  - intros E. apply none_test. intros m Hm.
    pose proof (is_set_test s m Hm) as Hs.
    pose proof (is_set_in_range s _ Hs) as Hr.
    rewrite Hnone in Hs; [done|lia].
Qed.

End Stops.

(** X16: [begin()] returns the iterator on the present member of lowest
    ordinal: dereferencing it gives a member for which [test] is true and
    no present member has a lower ordinal; when the set is empty, and only
    then, it is at index [size()] and equal to [end()], so
    [begin() != end()] is [any()]. *)
Theorem begin_lowest_member (max : T) (h : gmap loc (object max)) (l : loc)
    (s : EnumClassBitset max) (fuel : nat) :
  0 <= max <= int_max ->
  h !! l = Some (EnumSet s) ->
  (N.to_nat (size s) <= fuel)%nat ->
  exists it,
    begin max fuel l h = Ok (it, h) /\
    bitset it = l /\
    (index it <= size s)%N /\
    ((index it < size s)%N ->
     test s (op_deref it) = Ok true /\
     enumIndex (op_deref it) = index it /\
     (forall m, test s m = Ok true -> (index it <= enumIndex m)%N)) /\
    (index it = size s <-> none s = true) /\
    iterator_ne it (iterator_ctor l (static_cast_size_t max)) = any s.
Proof.
  intros Hmax Hl Hf.
  pose proof (eq_refl : size s = ImplSize max) as Hsz.
  destruct (findNext_lowest Hmax h l s Hl fuel (iterator_ctor l 0))
    as (it & E & Hb & Hi & Hv & Hmin); [done|simpl; lia|simpl; lia|].
  destruct (begin_first Hmax h l s Hl fuel Hf) as (v & E').
  assert (index it = first_from s (N.to_nat (ImplSize max)) 0) as Hidx.
  { unfold begin in E'. rewrite E in E'. by injection E' as ->. }
  assert (index it = size s <-> none s = true) as Hnone
    by (rewrite Hidx; symmetry; apply none_first_from).
  exists it. split_and!; [done|done|apply Hi| |done|].
  - intros Hlt. destruct (Hv Hlt) as (_ & Ht & He). split_and!; [done..|].
    intros m Hm. apply Hmin; [done|simpl; lia].
  - unfold iterator_ne, iterator_eq. simpl. rewrite Hb.
    rewrite bool_decide_eq_true_2 by done. simpl.
    change (static_cast_size_t max) with (size s).
    change (any s) with (negb (none s)). f_equal.
    apply eq_iff_eq_true. by rewrite N.eqb_eq.
Qed.

Lemma begin_lowest_member_witness :
  exists it,
    begin TestEnum.max 4 2 TestEnum.two_sets = Ok (it, TestEnum.two_sets) /\
    bitset it = 2%positive /\
    (index it <= size TestEnum.A_and_B)%N /\
    ((index it < size TestEnum.A_and_B)%N ->
     test TestEnum.A_and_B (op_deref it) = Ok true /\
     enumIndex (op_deref it) = index it /\
     (forall m, test TestEnum.A_and_B m = Ok true -> (index it <= enumIndex m)%N)) /\
    (index it = size TestEnum.A_and_B <-> none TestEnum.A_and_B = true) /\
    iterator_ne it (iterator_ctor 2 (static_cast_size_t TestEnum.max))
    = any TestEnum.A_and_B.
Proof.
  apply (begin_lowest_member TestEnum.max TestEnum.two_sets 2 TestEnum.A_and_B 4).
  - by vm_compute.
  - reflexivity.
  - vm_compute. lia.
Defined.

(** X17: [operator++] on an iterator at a position below [size()] moves
    it to the next present member: the new index is strictly greater,
    dereferencing gives a member for which [test] is true, and no present
    member lies strictly between the two positions; when no present
    member follows, the new index is [size()], the index of [end()]. *)
Theorem op_incr_next_member (max : T) (h : gmap loc (object max))
    (s : EnumClassBitset max) (fuel : nat) (it : iterator) :
  0 <= max <= int_max ->
  h !! bitset it = Some (EnumSet s) ->
  (index it < size s)%N ->
  (N.to_nat (size s) <= fuel)%nat ->
  exists it',
    op_incr max fuel it h = Ok (it', h) /\
    bitset it' = bitset it /\
    (index it < index it' <= size s)%N /\
    ((index it' < size s)%N ->
     test s (op_deref it') = Ok true /\ enumIndex (op_deref it') = index it') /\
    (forall m, test s m = Ok true -> (index it < enumIndex m)%N ->
               (index it' <= enumIndex m)%N) /\
    iterator_eq it' (iterator_ctor (bitset it) (static_cast_size_t max))
    = (index it' =? size s)%N.
Proof.
  intros Hmax Hl Hi Hf. unfold op_incr.
  pose proof (eq_refl : size s = ImplSize max) as Hsz.
  rewrite (size_t_succ_in_range Hmax _ Hi).
  destruct (findNext_lowest Hmax h (bitset it) s Hl fuel
              {| bitset := bitset it; index := (index it + 1)%N; value := value it |})
    as (it' & E & Hb & Hidx & Hv & Hmin);
    [done|simpl; lia|simpl; lia|].
  simpl in *. exists it'. split_and!; [done|done|lia|apply Hidx| | |].
  - intros Hlt. destruct (Hv Hlt) as (_ & Ht & He). by split.
  - intros m Hm Hgt. apply Hmin; [done|lia].
  - unfold iterator_eq. simpl. rewrite Hb.
    by rewrite bool_decide_eq_true_2.
Qed.

Lemma op_incr_next_member_witness :
  exists it',
    op_incr TestEnum.max 4 (iterator_ctor 2 0) TestEnum.two_sets
      = Ok (it', TestEnum.two_sets) /\
    bitset it' = bitset (iterator_ctor 2 0) /\
    (index (iterator_ctor 2 0) < index it' <= size TestEnum.A_and_B)%N /\
    ((index it' < size TestEnum.A_and_B)%N ->
     test TestEnum.A_and_B (op_deref it') = Ok true /\
     enumIndex (op_deref it') = index it') /\
    (forall m, test TestEnum.A_and_B m = Ok true ->
               (index (iterator_ctor 2 0) < enumIndex m)%N ->
               (index it' <= enumIndex m)%N) /\
    iterator_eq it' (iterator_ctor (bitset (iterator_ctor 2 0))
                       (static_cast_size_t TestEnum.max))
    = (index it' =? size TestEnum.A_and_B)%N.
Proof.
  apply (op_incr_next_member TestEnum.max TestEnum.two_sets TestEnum.A_and_B 4
           (iterator_ctor 2 0)).
  - by vm_compute.
  - reflexivity.
  - by vm_compute.
  - vm_compute. lia.
Defined.

(** X18: [operator++] on [end()] does not stay at [end()]: the iterator
    moves to index [size() + 1], compares unequal to [end()], and
    [findNext] leaves it there. *)
Theorem op_incr_past_end (max : T) (h : gmap loc (object max)) (l : loc)
    (s : EnumClassBitset max) (fuel : nat) :
  0 <= max <= int_max ->
  h !! l = Some (EnumSet s) ->
  exists e it',
    end_ max l h = Ok (e, h) /\
    op_incr max fuel e h = Ok (it', h) /\
    index it' = (size s + 1)%N /\
    iterator_eq it' e = false /\
    iterator_ne it' e = true /\
    (forall fuel', findNext max fuel' it' h = Ok (it', h)).
Proof.
  intros Hmax Hl.
  set (e := iterator_ctor l (static_cast_size_t max)).
  assert (size_t_succ (static_cast_size_t max) = (ImplSize max + 1)%N) as Hs.
  { fold (ImplSize max). rewrite (ImplSize_nonneg Hmax).
    unfold size_t_succ, size_t_modulus, int_max in *. apply N.mod_small. lia. }
  set (it' := {| bitset := l; index := (ImplSize max + 1)%N; value := value e |}).
  assert (forall fuel', findNext max fuel' it' h = Ok (it', h)) as Hstay
    by (intros fuel'; apply (findNext_end h l s Hl); [done|simpl; lia]).
  assert (iterator_eq it' e = false) as Hne.
  { unfold iterator_eq. simpl. rewrite bool_decide_eq_true_2 by done. simpl.
    apply N.eqb_neq. fold (ImplSize max). lia. }
  exists e, it'. split_and!; [done| |done|done| |done].
  - unfold op_incr. simpl. rewrite Hs. apply Hstay.
  - unfold iterator_ne. by rewrite Hne.
Qed.

Lemma op_incr_past_end_witness :
  exists e it',
    end_ TestEnum.max 2 TestEnum.two_sets = Ok (e, TestEnum.two_sets) /\
    op_incr TestEnum.max 4 e TestEnum.two_sets = Ok (it', TestEnum.two_sets) /\
    index it' = (size TestEnum.A_and_B + 1)%N /\
    iterator_eq it' e = false /\
    iterator_ne it' e = true /\
    (forall fuel', findNext TestEnum.max fuel' it' TestEnum.two_sets
                   = Ok (it', TestEnum.two_sets)).
Proof.
  apply (op_incr_past_end TestEnum.max TestEnum.two_sets 2 TestEnum.A_and_B 4).
  - by vm_compute.
  - reflexivity.
Defined.

(** X15: a range-based [for] over a set visits [count()] members. *)
Theorem range_for_count (max : T) (h : gmap loc (object max)) (l : loc)
    (s : EnumClassBitset max) (fuel : nat) :
  0 <= max <= int_max ->
  h !! l = Some (EnumSet s) ->
  (N.to_nat (size s) <= fuel)%nat ->
  exists L, range_for max fuel l h = Ok (L, h) /\ N.of_nat (length L) = count s.
Proof.
  intros Hmax Hl Hf. eexists. split; [by apply range_for_positions|].
  rewrite length_fmap, positions_from_length. simpl.
  rewrite drop_0, take_ge by (rewrite length_vec_to_list; lia). done.
Qed.

Lemma range_for_count_witness :
  exists L, range_for TestEnum.max 4 2 TestEnum.two_sets = Ok (L, TestEnum.two_sets) /\
            N.of_nat (length L) = count TestEnum.A_and_B.
Proof.
  apply (range_for_count TestEnum.max TestEnum.two_sets 2 TestEnum.A_and_B 4).
  - by vm_compute.
  - reflexivity.
  - vm_compute. lia.
Defined.

(** ** Iterating an intersection *)

Section IterateAnd.
Context {max : T}.
Implicit Types (a b : EnumClassBitset max).

Lemma is_set_op_and a b (i : N) :
  is_set (op_and a b) i = is_set a i && is_set b i.
Proof.
  unfold is_set, op_and, Std.and_assign, Std.test. simpl.
  destruct (Std.position i) as [j|]; [|done].
  rewrite vlookup_zip_with.
  by destruct (mBitset a !!! j), (mBitset b !!! j).
Qed.

Lemma positions_from_op_and a b (k : nat) (i : N) :
  positions_from (op_and a b) k i
  = filter (fun j => is_set b j = true) (positions_from a k i).
Proof.
  revert i. induction k as [|k IH]; intros i; [done|]. simpl.
  rewrite is_set_op_and. destruct (is_set a i); simpl; [|apply IH].
  rewrite filter_cons. destruct (is_set b i) eqn:E.
  - rewrite decide_True by done. by rewrite IH.
  - rewrite decide_False by done. apply IH.
Qed.

Lemma filter_visited (b : EnumClassBitset max) (P : N -> Prop) `{forall j, Decision (P j)}
    (l : list N) :
  0 <= max <= int_max ->
  Forall (fun j => (j < ImplSize max)%N) l ->
  (forall j, (j < ImplSize max)%N -> P j <-> test b (static_cast_T j) = Ok true) ->
  static_cast_T <$> filter P l
  = filter (fun m => test b m = Ok true) (static_cast_T <$> l).
Proof.
  intros Hmax Hl HP. induction Hl as [|j l Hj _ IH]; [done|].
  rewrite fmap_cons, !filter_cons.
  destruct (decide (P j)) as [Hp|Hn].
  - rewrite decide_True by by apply HP. rewrite fmap_cons. by f_equal.
  - rewrite decide_False; [done|]. intros Ht. by apply Hn, HP.
Qed.

End IterateAnd.

(** X19: iterating the intersection [a & b] visits the members that
    iterating [a] visits and for which [b.test] is true, in the same
    order. *)
Theorem range_for_op_and (max : T) (h : gmap loc (object max)) (la lc : loc)
    (a b : EnumClassBitset max) (fuel : nat) :
  0 <= max <= int_max ->
  h !! la = Some (EnumSet a) ->
  h !! lc = Some (EnumSet (op_and a b)) ->
  (N.to_nat (size a) <= fuel)%nat ->
  exists La,
    range_for max fuel la h = Ok (La, h) /\
    range_for max fuel lc h
    = Ok (filter (fun m => test b m = Ok true) La, h).
Proof.
  intros Hmax Ha Hc Hf. eexists. split; [by apply range_for_positions|].
  rewrite (range_for_positions Hmax h lc (op_and a b) Hc fuel Hf).
  rewrite positions_from_op_and. f_equal. f_equal.
  apply filter_visited; [done| |].
  - apply Forall_forall. intros j [Hj _]%elem_of_positions_from. lia.
  - intros j Hj. rewrite (test_cast Hmax b j Hj). split; congruence.
Qed.

Lemma range_for_op_and_witness :
  exists La,
    range_for TestEnum.max 4 2 TestEnum.two_sets = Ok (La, TestEnum.two_sets) /\
    range_for TestEnum.max 4 1 TestEnum.two_sets
    = Ok (filter (fun m => test TestEnum.only_A m = Ok true) La, TestEnum.two_sets).
Proof.
  apply (range_for_op_and TestEnum.max TestEnum.two_sets 2 1
           TestEnum.A_and_B TestEnum.only_A 4).
  - by vm_compute.
  - reflexivity.
  - reflexivity.
  - vm_compute. lia.
Defined.

(** ** Chained calls *)

(** X20: a mutating member returns the reference it was called on, so a
    chain [s.set(m, v).set(m', v')] applies both updates, in order, to the
    one object [s] and leaves every other object of the store alone; when
    the first call throws, the chain throws. *)
Theorem chained_set (max : T) (h : gmap loc (object max)) (l : loc)
    (s : EnumClassBitset max) (m m' : T) (v v' : bool) :
  h !! l = Some (EnumSet s) ->
  (let* r := call_mut max l (fun s => set s m v) in
   call_mut max r (fun s => set s m' v')) h
  = match result_bind (set s m v) (fun s1 => set s1 m' v') with
    | Ok s2 => Ok (l, <[l := EnumSet s2]> h)
    | Throw e => Throw e
    | Undefined => Undefined
    | OutOfFuel => OutOfFuel
    end.
Proof.
  intros Hl. unfold bind at 1.
  destruct (set s m v) as [s1| | |] eqn:E1; simpl.
  - rewrite (call_mut_Some h l s s1 _ Hl E1).
    destruct (set s1 m' v') as [s2| | |] eqn:E2.
    + rewrite (call_mut_Some _ l s1 s2); [|apply lookup_insert_eq|done].
      by rewrite insert_insert_eq.
    + unfold call_mut, bind, lift. rewrite (deref_Some _ l s1) by apply lookup_insert_eq.
      by rewrite E2.
    + unfold call_mut, bind, lift. rewrite (deref_Some _ l s1) by apply lookup_insert_eq.
      by rewrite E2.
    + unfold call_mut, bind, lift. rewrite (deref_Some _ l s1) by apply lookup_insert_eq.
      by rewrite E2.
  - unfold call_mut, bind, lift. rewrite (deref_Some _ l s Hl). by rewrite E1.
  - unfold call_mut, bind, lift. rewrite (deref_Some _ l s Hl). by rewrite E1.
  - unfold call_mut, bind, lift. rewrite (deref_Some _ l s Hl). by rewrite E1.
Qed.

Lemma chained_set_witness :
  (let* r := call_mut TestEnum.max 1 (fun s => set s TestEnum.B true) in
   call_mut TestEnum.max r (fun s => set s TestEnum.E true)) TestEnum.two_sets
  = match result_bind (set TestEnum.only_A TestEnum.B true)
            (fun s1 => set s1 TestEnum.E true) with
    | Ok s2 => Ok (1%positive, <[1%positive := EnumSet s2]> TestEnum.two_sets)
    | Throw e => Throw e
    | Undefined => Undefined
    | OutOfFuel => OutOfFuel
    end.
Proof.
  apply (chained_set TestEnum.max TestEnum.two_sets 1 TestEnum.only_A
           TestEnum.B TestEnum.E true true).
  reflexivity.
Defined.

(** ** The two casts *)

(** X21: casting an enumerator to its bit position and back gives the
    enumerator, [static_cast<T>(enumIndex(m)) = m], for every [int] value
    [m]; a non-negative enumerator has its value as position, and a
    negative one has a position above every non-negative [int], hence
    outside the storage of any set whose [max] is a non-negative [int]. *)
Theorem enumIndex_roundtrip (m : T) :
  int_min <= m <= int_max ->
  static_cast_T (enumIndex m) = m /\
  enumIndex (static_cast_T (enumIndex m)) = enumIndex m /\
  (0 <= m -> enumIndex m = Z.to_N m) /\
  (m < 0 -> (Z.to_N int_max < enumIndex m)%N).
Proof.
  intros Hm.
  assert (static_cast_T (enumIndex m) = m) as Hrt.
  { unfold enumIndex, static_cast_size_t, static_cast_T,
      int_min, int_max, int_modulus, size_t_modulus in *.
    destruct (decide (0 <= m)) as [Hpos|Hneg].
    - rewrite (Z.mod_small m) by lia. rewrite Z2N.id by lia.
      rewrite Z.mod_small by lia. lia.
    - assert (m mod 2 ^ 64 = m + 2 ^ 64) as ->
        by (symmetry; apply (Z.mod_unique m (2 ^ 64) (-1)); lia).
      rewrite Z2N.id by lia.
      assert ((m + 2 ^ 64 - - 2 ^ 31) mod 2 ^ 32 = m + 2 ^ 31) as ->
        by (symmetry; apply (Z.mod_unique _ (2 ^ 32) (2 ^ 32)); lia).
      lia. }
  split_and!; [done|by rewrite Hrt| |].
  - intros Hpos. unfold enumIndex, static_cast_size_t, size_t_modulus, int_max in *.
    rewrite Z.mod_small by lia. done.
  - intros Hneg. unfold enumIndex, static_cast_size_t, size_t_modulus,
      int_min, int_max in *.
    assert (m mod 2 ^ 64 = m + 2 ^ 64) as ->
      by (symmetry; apply (Z.mod_unique m (2 ^ 64) (-1)); lia).
    lia.
Qed.

Lemma enumIndex_roundtrip_witness :
  static_cast_T (enumIndex (-1)) = -1 /\
  enumIndex (static_cast_T (enumIndex (-1))) = enumIndex (-1) /\
  (0 <= -1 -> enumIndex (-1) = Z.to_N (-1)) /\
  (-1 < 0 -> (Z.to_N int_max < enumIndex (-1)%Z)%N).
Proof. apply (enumIndex_roundtrip (-1)). by vm_compute. Defined.

(** ** Iteration determines the set *)

(** X22: two sets of one enumeration type are equal ([==]) exactly when
    iterating them visits the same members: the list of visited members
    identifies the set. *)
Theorem range_for_determines_set (max : T) (h : gmap loc (object max)) (la lb : loc)
    (a b : EnumClassBitset max) (fuel : nat) :
  0 <= max <= int_max ->
  h !! la = Some (EnumSet a) ->
  h !! lb = Some (EnumSet b) ->
  (N.to_nat (size a) <= fuel)%nat ->
  exists La Lb,
    range_for max fuel la h = Ok (La, h) /\
    range_for max fuel lb h = Ok (Lb, h) /\
    (La = Lb <-> op_eq a b = true).
Proof.
  intros Hmax Ha Hb Hf. eexists _, _.
  split; [by apply range_for_positions|].
  split; [by apply (range_for_positions Hmax h lb b)|].
  rewrite op_eq_true. split; [|by intros ->].
  intros HL. destruct a as [x], b as [y]. f_equal. apply vec_eq. intros i.
  pose proof (fin_to_nat_lt i) as Hi.
  pose proof (ImplSize_nonneg Hmax) as Hn.
  assert (int_min <= Z.of_nat (fin_to_nat i) <= int_max) as Hm
    by (unfold int_min, int_max in *; lia).
  set (m := Z.of_nat (fin_to_nat i)) in *.
  pose proof (visited_iff Hmax (Build_EnumClassBitset max x) m Hm) as Hx.
  pose proof (visited_iff Hmax (Build_EnumClassBitset max y) m Hm) as Hy.
  rewrite HL in Hx. rewrite Hx in Hy. unfold m in Hy.
  rewrite !test_of_position in Hy. simpl in Hy.
  destruct (x !!! i), (y !!! i); try done.
  - discriminate (proj1 Hy eq_refl).
  - discriminate (proj2 Hy eq_refl).
Qed.

Lemma range_for_determines_set_witness :
  exists La Lb,
    range_for TestEnum.max 4 1 TestEnum.two_sets = Ok (La, TestEnum.two_sets) /\
    range_for TestEnum.max 4 2 TestEnum.two_sets = Ok (Lb, TestEnum.two_sets) /\
    (La = Lb <-> op_eq TestEnum.only_A TestEnum.A_and_B = true).
Proof.
  apply (range_for_determines_set TestEnum.max TestEnum.two_sets 1 2
           TestEnum.only_A TestEnum.A_and_B 4).
  - by vm_compute.
  - reflexivity.
  - reflexivity.
  - vm_compute. lia.
Defined.
